(** * outofforest/parallel: the task group of group.go

    A shallow embedding of [Group] (group.go) and of the objects it works on:
    Go error values, contexts, channels and the goroutines started by
    [Spawn].  Every critical section of the source (the code between
    [g.mu.Lock()] and [g.mu.Unlock()]) is one atomic computation on a
    [World], the shared heap of the program. *)

From stdpp Require Import gmap strings list fin_maps pretty.
From Stdlib Require Import ZArith Lia.

Local Open Scope Z_scope.

(** ** Go values *)

(** Go's [int] on a 64-bit platform: [running++] and [running--] wrap. *)
Definition int_wrap (z : Z) : Z := (z + 2 ^ 63) `mod` 2 ^ 64 - 2 ^ 63.

(** Modelled from the spec: the struct [PanicError] of this package is
    declared outside group.go; spec 3 gives its fields ([Value], the payload of
    the panic, an [interface{}], and [Stack], the rendered trace), and the
    tests [TestPanicString] and [TestPanicError] read them.
    The other constructors are the [error] values of the libraries that
    group.go imports.  [Canceled] and [DeadlineExceeded] are the two
    sentinels of package context.  [fundamental] is what [errors.New] and
    [errors.Errorf] of github.com/pkg/errors allocate, [withMessage] and
    [withStack] are its wrappers; [addr] is the address of the allocated
    object, so that two errors with one text are still two errors. *)
Inductive error : Type :=
| Canceled
| DeadlineExceeded
| fundamental (addr : nat) (msg : string)
| withMessage (addr : nat) (cause : error) (msg : string)
| withStack (addr : nat) (cause : error)
| PanicError (Value : any) (Stack : string)
with any : Type :=
| AnyString (s : string)
| AnyInt (z : Z)
| AnyError (e : error).

Fixpoint error_eq_dec (a b : error) : {a = b} + {a <> b}
with any_eq_dec (a b : any) : {a = b} + {a <> b}.
Proof.
  - decide equality; try apply String.string_dec; apply Nat.eq_dec.
  - decide equality; try apply String.string_dec; apply Z.eq_dec.
Defined.

#[export] Instance error_eqdecision : EqDecision error := error_eq_dec.
#[export] Instance any_eqdecision : EqDecision any := any_eq_dec.

(** Induction over an error and the payload of a [PanicError] at once. *)
Scheme error_mut := Induction for error Sort Prop
  with any_mut := Induction for any Sort Prop.

(** [==] on two interface values panics only when both hold the same
    uncomparable type; [errors.Is] asks first whether the target's type is
    comparable.  [PanicError] holds a byte slice and is not. *)
Definition comparable (e : error) : bool :=
  match e with PanicError _ _ => false | _ => true end.

(** The decimal form of an integer, as [%v] prints it. *)
Definition Z_to_string (z : Z) : string := pretty z.

(** The [Error()] method.  That of [PanicError] is modelled from the spec
    (spec 3: the text "panic: " and the message of the payload if it is an
    error, its string form otherwise). *)
Fixpoint Error (e : error) : string :=
  match e with
  | Canceled => "context canceled"
  | DeadlineExceeded => "context deadline exceeded"
  | fundamental _ msg => msg
  | withMessage _ cause msg => msg +:+ ": " +:+ Error cause
  | withStack _ cause => Error cause
  | PanicError v _ =>
      "panic: " +:+
      match v with
      | AnyString s => s
      | AnyInt z => Z_to_string z
      | AnyError e' => Error e'
      end
  end.

(** The [Unwrap()] method, [None] where the type has none or it yields nil.
    That of [PanicError] is modelled from the spec (spec 3: the payload if it
    is an error, else nothing). *)
Definition Unwrap (e : error) : option error :=
  match e with
  | withMessage _ cause _ => Some cause
  | withStack _ cause => Some cause
  | PanicError (AnyError e') _ => Some e'
  | _ => None
  end.

(** [errors.Is] of github.com/pkg/errors v0.9.1, which is [errors.Is] of the
    standard library: walk the [Unwrap] chain of [err] and compare each link
    with [target]. *)
Fixpoint errors_Is_chain (err target : error) : bool :=
  (comparable target && bool_decide (err = target))
  || match err with
     | withMessage _ cause _ => errors_Is_chain cause target
     | withStack _ cause => errors_Is_chain cause target
     | PanicError (AnyError e') _ => errors_Is_chain e' target
     | _ => false
     end.

(** An [error] interface value may be nil: [None]. *)
Definition errors_Is (err : option error) (target : option error) : bool :=
  match err, target with
  | Some e, Some t => errors_Is_chain e t
  | None, None => true
  | _, _ => false
  end.

(** ** Contexts *)

(** A [context.Context] value is an immutable chain of derivations; what
    changes is whether a link of it has been cancelled, which the [World]
    records under the link's [id].  [Root] is a context the caller owns,
    [WithCancel] the result of [context.WithCancel], [WithValue] the result of
    [logger.WithLogger] and [logger.With], which attach a logger and cancel
    nothing.  [Background] is [context.Background()]: never cancelled, and
    with no value in it, so no logger either.  A [Root] is cancelled by its
    owner and carries a logger, as the contexts of the tests of this package
    do, which are made with [logger.WithLogger]. *)
Inductive Context : Type :=
| Background
| Root (id : nat)
| WithCancel (id : nat) (parent : Context)
| WithValue (parent : Context).

(** [ctx.Err()]: nil until the context or one of its ancestors is cancelled.
    A link cancelled on its own keeps its error when an ancestor is cancelled
    later. *)
Fixpoint Context_Err (cs : gmap nat (option error)) (c : Context) : option error :=
  match c with
  | Background => None
  | Root id => mjoin (cs !! id)
  | WithCancel id parent =>
      match mjoin (cs !! id) with
      | Some e => Some e
      | None => Context_Err cs parent
      end
  | WithValue parent => Context_Err cs parent
  end.

(** [<-ctx.Done()] can proceed. *)
Definition Context_Done (cs : gmap nat (option error)) (c : Context) : bool :=
  bool_decide (is_Some (Context_Err cs c)).

(** Every link of the chain has been created. *)
Fixpoint Context_valid (cs : gmap nat (option error)) (c : Context) : bool :=
  match c with
  | Background => true
  | Root id => bool_decide (is_Some (cs !! id))
  | WithCancel id parent => bool_decide (is_Some (cs !! id)) && Context_valid cs parent
  | WithValue parent => Context_valid cs parent
  end.

(** [ctx.Value] finds a logger: one was attached to the context or to an
    ancestor of it. *)
Fixpoint has_logger (c : Context) : bool :=
  match c with
  | Background => false
  | Root _ => true
  | WithCancel _ parent => has_logger parent
  | WithValue _ => true
  end.

(** ** Tasks, goroutines and the group *)

(** Modelled from the spec: the declaration of [OnExit] (an integer type with
    the constants [Continue], [Exit] and [Fail]) is not in group.go.  The
    [switch] of [runTask] has a [default] branch, so a value that is none of
    the three is kept, with its number. *)
Inductive OnExit : Type :=
| Continue
| Exit
| Fail
| OnExitOther (n : Z).

(** Modelled from the spec: the [String] method of [OnExit] is declared outside
    group.go; the spec only says that the error of the [default] branch names
    the unrecognized policy.  No statement below depends on this text. *)
Definition OnExit_String (o : OnExit) : string :=
  match o with
  | Continue => "Continue"
  | Exit => "Exit"
  | Fail => "Fail"
  | OnExitOther n => Z_to_string n
  end.

(** A [Task] is a [func(ctx context.Context) error].  The group never looks
    inside one; what matters is which function it is.  [TaskFn] is a function
    of the caller.  [TaskSubgroup] is the closure that [NewSubgroup] hands to
    [spawn], which captures [ch] and [fields]; once it has sent its group it
    is in [g.Complete(ctx)], and so is the method value [subgroup.Complete]
    that the documentation of [Complete] passes to [Spawn]:
    [TaskComplete]. *)
Inductive Task : Type :=
| TaskFn (fn : nat)
| TaskSubgroup (ch : nat) (fields : list string)
| TaskComplete (g : nat) (c : Context).

(** How the body of a task ends: it returns, or it panics with a payload
    while [frames] are the functions on its stack, innermost first. *)
Inductive TaskResult : Type :=
| Returns (e : option error)
| Panics (v : any) (frames : list string).

(** The arguments of one [go g.runTask(ctx, id, name, onExit, task)]. *)
Record Goroutine : Type := mkGoroutine {
  go_group : nat;
  go_ctx : Context;
  go_id : Z;
  go_name : string;
  go_onExit : OnExit;
  go_task : Task
}.

(** [type Group struct].  [cancel] is the [CancelFunc] of [ctx]: the context
    it cancels.  [done] is the address of the channel.  The mutex has no
    field: a critical section is one step. *)
Record Group : Type := mkGroup {
  ctx : Context;
  cancel : Context;
  running : Z;
  done : nat;
  closing : bool;
  err : option error
}.

(** The heap.  [chans] holds every [chan struct{}] with whether it is closed,
    [gchans] every [chan *Group] with the value a sender offers, [ctxs] every
    context link with its error once cancelled, [groups] every [*Group],
    [goroutines] the goroutines started by [Spawn] that have not finished.
    [nextTaskID] is the package variable, [heap_top] the next address for an
    error object. *)
Record World : Type := mkWorld {
  nextTaskID : Z;
  heap_top : nat;
  chans : gmap nat bool;
  gchans : gmap nat (option nat);
  ctxs : gmap nat (option error);
  groups : gmap nat Group;
  goroutines : gmap nat Goroutine
}.

Definition World0 : World :=
  {| nextTaskID := 0x0bace1d000000000; heap_top := 0;
     chans := ∅; gchans := ∅; ctxs := ∅; groups := ∅; goroutines := ∅ |}.

Definition set_nextTaskID (z : Z) (w : World) : World :=
  mkWorld z (heap_top w) (chans w) (gchans w) (ctxs w) (groups w) (goroutines w).
Definition set_heap_top (n : nat) (w : World) : World :=
  mkWorld (nextTaskID w) n (chans w) (gchans w) (ctxs w) (groups w) (goroutines w).
Definition set_chans (m : gmap nat bool) (w : World) : World :=
  mkWorld (nextTaskID w) (heap_top w) m (gchans w) (ctxs w) (groups w) (goroutines w).
Definition set_gchans (m : gmap nat (option nat)) (w : World) : World :=
  mkWorld (nextTaskID w) (heap_top w) (chans w) m (ctxs w) (groups w) (goroutines w).
Definition set_ctxs (m : gmap nat (option error)) (w : World) : World :=
  mkWorld (nextTaskID w) (heap_top w) (chans w) (gchans w) m (groups w) (goroutines w).
Definition set_groups (m : gmap nat Group) (w : World) : World :=
  mkWorld (nextTaskID w) (heap_top w) (chans w) (gchans w) (ctxs w) m (goroutines w).
Definition set_goroutines (m : gmap nat Goroutine) (w : World) : World :=
  mkWorld (nextTaskID w) (heap_top w) (chans w) (gchans w) (ctxs w) (groups w) m.

Definition set_running (z : Z) (G : Group) : Group :=
  mkGroup (ctx G) (cancel G) z (done G) (closing G) (err G).
Definition set_done (ch : nat) (G : Group) : Group :=
  mkGroup (ctx G) (cancel G) (running G) ch (closing G) (err G).
Definition set_closing (b : bool) (G : Group) : Group :=
  mkGroup (ctx G) (cancel G) (running G) (done G) b (err G).
Definition set_err (e : option error) (G : Group) : Group :=
  mkGroup (ctx G) (cancel G) (running G) (done G) (closing G) e.

(** ** Computations on the heap *)

(** A computation ends with a value and a new heap, or in a Go panic, or it
    cannot proceed in this heap (a receive on a channel nobody has closed or
    sent on), or it names an object that was never allocated. *)
Inductive Result (A : Type) : Type :=
| Ok (a : A)
| GoPanic (msg : string)
| Blocked
| Dangling.
Arguments Ok {A} a.
Arguments GoPanic {A} msg.
Arguments Blocked {A}.
Arguments Dangling {A}.

Definition M (A : Type) : Type := World -> Result (A * World).

Definition ret {A} (a : A) : M A := fun w => Ok (a, w).

Definition bind {A B} (c : M A) (k : A -> M B) : M B :=
  fun w =>
    match c w with
    | Ok (a, w') => k a w'
    | GoPanic msg => GoPanic msg
    | Blocked => Blocked
    | Dangling => Dangling
    end.

Declare Scope go_scope.
Delimit Scope go_scope with go.
Notation "x <- c ;; k" := (bind c (fun x => k))
  (at level 100, c at next level, k at level 200, right associativity) : go_scope.
Notation "c ;; k" := (bind c (fun _ => k))
  (at level 100, k at level 200, right associativity) : go_scope.
Bind Scope go_scope with M.
Local Open Scope go_scope.

Definition get : M World := fun w => Ok (w, w).
Definition modify (f : World -> World) : M unit := fun w => Ok (tt, f w).
Definition when (b : bool) (c : M unit) : M unit := if b then c else ret tt.

(** [*g]: read the struct behind the pointer. *)
Definition load (g : nat) : M Group :=
  fun w => match groups w !! g with
           | Some G => Ok (G, w)
           | None => Dangling
           end.

(** [g.field = v]. *)
Definition store (g : nat) (f : Group -> Group) : M unit :=
  G <- load g ;; modify (fun w => set_groups (<[g := f G]> (groups w)) w).

(** [new(Group)]. *)
Definition new_Group (G : Group) : M nat :=
  w <- get ;;
  let g := fresh (dom (groups w)) in
  modify (set_groups (<[g := G]> (groups w))) ;; ret g.

(** [make(chan struct{})]. *)
Definition make_chan : M nat :=
  w <- get ;;
  let ch := fresh (dom (chans w)) in
  modify (set_chans (<[ch := false]> (chans w))) ;; ret ch.

(** [close(ch)] panics on a closed channel. *)
Definition close (ch : nat) : M unit :=
  fun w => match chans w !! ch with
           | Some false => Ok (tt, set_chans (<[ch := true]> (chans w)) w)
           | Some true => GoPanic "close of closed channel"
           | None => Dangling
           end.

(** [<-ch] on a [chan struct{}] that nobody sends on: proceeds once closed. *)
Definition recv (ch : nat) : M unit :=
  fun w => match chans w !! ch with
           | Some true => Ok (tt, w)
           | Some false => Blocked
           | None => Dangling
           end.

(** [make(chan *Group)], [ch <- g] and [<-ch]. *)
Definition make_gchan : M nat :=
  w <- get ;;
  let ch := fresh (dom (gchans w)) in
  modify (set_gchans (<[ch := None]> (gchans w))) ;; ret ch.

Definition send_gchan (ch g : nat) : M unit :=
  fun w => match gchans w !! ch with
           | Some _ => Ok (tt, set_gchans (<[ch := Some g]> (gchans w)) w)
           | None => Dangling
           end.

Definition recv_gchan (ch : nat) : M nat :=
  fun w => match gchans w !! ch with
           | Some (Some g) => Ok (g, w)
           | Some None => Blocked
           | None => Dangling
           end.

(** [context.WithCancel(parent)]: the derived context and its [CancelFunc]. *)
Definition context_WithCancel (parent : Context) : M (Context * Context) :=
  w <- get ;;
  let id := fresh (dom (ctxs w)) in
  modify (set_ctxs (<[id := None]> (ctxs w))) ;;
  ret (WithCancel id parent, WithCancel id parent).

(** Calling a [CancelFunc]: nothing if the context is done already. *)
Definition cancel_ctx (c : Context) (cs : gmap nat (option error))
  : gmap nat (option error) :=
  match c with
  | WithCancel id _ =>
      if Context_Done cs c then cs else <[id := Some Canceled]> cs
  | _ => cs
  end.

Definition call_cancel (c : Context) : M unit :=
  modify (fun w => set_ctxs (cancel_ctx c (ctxs w)) w).

(** [logger.Get(ctx)] of github.com/outofforest/logger asserts that
    [ctx.Value(key)] is a pointer to a [zap.Logger]; the assertion panics on
    the nil interface that [Value] returns when the context carries no
    logger. *)
Definition logger_Get (c : Context) : M unit :=
  fun w => if has_logger c then Ok (tt, w)
           else GoPanic "interface conversion: interface {} is nil, not *zap.Logger".

(** [errors.Errorf]: a new error object with the formatted text. *)
Definition errors_Errorf (msg : string) : M error :=
  w <- get ;;
  modify (set_heap_top (S (heap_top w))) ;;
  ret (fundamental (heap_top w) msg).

(** [atomic.AddInt64(&nextTaskID, delta)], on a 64-bit integer. *)
Definition atomic_AddInt64_nextTaskID (delta : Z) : M Z :=
  w <- get ;;
  let v := int_wrap (nextTaskID w + delta) in
  modify (set_nextTaskID v) ;; ret v.

(** The [go] statement. *)
Definition go (r : Goroutine) : M unit :=
  w <- get ;;
  modify (set_goroutines (<[fresh (dom (goroutines w)) := r]> (goroutines w))).

(** ** The task runner *)

Definition newline : string := String (Ascii.ascii_of_nat 10) EmptyString.

(** Modelled from the spec: the trace that [PanicError] carries is rendered
    where the panic happens (spec 4.2, step 4), from the frames that are live
    there; the function that renders it is not in group.go.  The text starts
    with the goroutine header and has one line per frame. *)
Definition render_Stack (frames : list string) : string :=
  "goroutine [running]:" +:+
  foldr (fun f acc => newline +:+ f +:+ "(...)" +:+ acc) "" frames.

(** Modelled from the spec: the package-level [runTask(ctx, task)], which
    the method [runTask] of [Group] calls and which is declared outside group.go, runs the
    body of the task under fault capture (spec 4.2, steps 1 to 4): what the
    body returns is the outcome, and a panic becomes a [PanicError] with the
    payload and the trace of the place of the panic. *)
Definition runTask (r : TaskResult) : option error :=
  match r with
  | Returns e => e
  | Panics v frames => Some (PanicError v (render_Stack frames))
  end.

(** ** The methods of [Group] *)

(** [NewGroup(ctx)]. *)
Definition NewGroup (c : Context) : M nat :=
  p <- context_WithCancel c ;;
  ch <- make_chan ;;
  close ch ;;
  new_Group {| ctx := fst p; cancel := snd p; running := 0; done := ch;
               closing := false; err := None |}.

(** [g.Context()]. *)
Definition Group_Context (g : nat) : M Context :=
  G <- load g ;; ret (ctx G).

(** [g.exit(err)], called with the mutex held. *)
Definition Group_exit (g : nat) (e : option error) : M unit :=
  G <- load g ;;
  if closing G && errors_Is e (Some Canceled) then ret tt
  else
    (G <- load g ;;
     when (bool_decide (err G = None)) (store g (set_err e))) ;;
    G <- load g ;;
    when (negb (closing G))
      (store g (set_closing true) ;; call_cancel (cancel G)).

(** [g.Exit(err)]: [exit] under the mutex. *)
Definition Group_Exit (g : nat) (e : option error) : M unit :=
  Group_exit g e.

(** [g.Spawn(name, onExit, task)].  The task id is drawn first, the critical
    section re-arms [done] and counts the task, [logger.Get(g.ctx)] fetches
    the logger of the group's context, and the [go] statement starts the task
    on that context with the named logger attached.  [logger.Get] comes after
    the critical section: on a context without a logger [Spawn] panics with
    the task counted and no goroutine started.  Writing the log line changes
    nothing here. *)
Definition Group_Spawn (g : nat) (name : string) (onExit : OnExit) (task : Task)
  : M unit :=
  id <- atomic_AddInt64_nextTaskID 1 ;;
  G <- load g ;;
  when (running G =? 0) (ch <- make_chan ;; store g (set_done ch)) ;;
  store g (fun G => set_running (int_wrap (running G + 1)) G) ;;
  G <- load g ;;
  logger_Get (ctx G) ;;
  go {| go_group := g; go_ctx := WithValue (ctx G); go_id := id;
        go_name := name; go_onExit := onExit; go_task := task |}.

(** [g.runTask(ctx, id, name, onExit, task)] from the point where the body of
    the task has ended with [r]: the outcome of [runTask(ctx, task)], then the
    critical section.  The log line in between takes its logger from [ctx],
    which is the context [Spawn] made with [logger.WithLogger]. *)
Definition Group_runTask (g : nat) (name : string) (onExit : OnExit)
    (r : TaskResult) : M unit :=
  let e := runTask r in
  match e with
  | Some _ => Group_exit g e
  | None =>
      G <- load g ;;
      if negb (closing G) then
        match onExit with
        | Continue => ret tt
        | Exit => Group_exit g None
        | Fail =>
            e' <- errors_Errorf ("task " +:+ name +:+ " terminated unexpectedly") ;;
            Group_exit g (Some e')
        | OnExitOther _ =>
            e' <- errors_Errorf ("task " +:+ name +:+ ": " +:+ OnExit_String onExit) ;;
            Group_exit g (Some e')
        end
      else ret tt
  end ;;
  store g (fun G => set_running (int_wrap (running G - 1)) G) ;;
  G <- load g ;;
  when (running G =? 0) (close (done G)).

(** [g.Running()] and [g.Done()]. *)
Definition Group_Running (g : nat) : M Z :=
  G <- load g ;; ret (running G).

Definition Group_Done (g : nat) : M nat :=
  G <- load g ;; ret (done G).

(** [g.Wait()] in a heap that nobody else changes meanwhile: take the
    channel, receive from it, read [g.err]. *)
Definition Group_Wait (g : nat) : M (option error) :=
  ch <- Group_Done g ;;
  recv ch ;;
  G <- load g ;; ret (err G).

(** [select] over the [Done] channels of two contexts. *)
Definition select_Done (c1 c2 : Context) : M unit :=
  fun w => if Context_Done (ctxs w) c1 || Context_Done (ctxs w) c2
           then Ok (tt, w) else Blocked.

(** [g.Complete(ctx)], likewise. *)
Definition Group_Complete (g : nat) (c : Context) : M (option error) :=
  G <- load g ;;
  select_Done c (ctx G) ;;
  e <- Group_Wait g ;;
  match e with
  | Some _ => ret e
  | None => w <- get ;; ret (Context_Err (ctxs w) c)
  end.

(** ** Subgroups *)

(** [type SpawnFn func(name string, onExit OnExit, task Task)]. *)
Definition SpawnFn : Type := string -> OnExit -> Task -> M unit.

(** The closure of [NewSubgroup] up to [ch <- g], run with the context [c]
    its goroutine was given; what is left of it is [g.Complete(c')].
    [logger.With] finds the logger that [Spawn] attached to [c]. *)
Definition subgroup_closure (ch : nat) (fields : list string) (c : Context)
  : M Task :=
  let c' := if (0 <? length fields)%nat then WithValue c else c in
  g <- NewGroup c' ;;
  send_gchan ch g ;;
  ret (TaskComplete g c').

Definition closure_of (ch : nat) (kr : nat * Goroutine) : bool :=
  match go_task kr.2 with
  | TaskSubgroup ch' _ => bool_decide (ch' = ch)
  | _ => false
  end.

(** The goroutine that holds the closure over [ch], if one was started. *)
Definition find_closure (ch : nat) (m : gmap nat Goroutine)
  : option (nat * Goroutine) :=
  head (map_to_list (filter (fun kr => closure_of ch kr = true) m)).

(** The scheduler runs that goroutine up to its send. *)
Definition run_closure (ch : nat) : M unit :=
  w <- get ;;
  match find_closure ch (goroutines w) with
  | Some (tid, r) =>
      match go_task r with
      | TaskSubgroup _ fields =>
          t <- subgroup_closure ch fields (go_ctx r) ;;
          w' <- get ;;
          modify (set_goroutines
                    (<[tid := mkGoroutine (go_group r) (go_ctx r) (go_id r)
                                (go_name r) (go_onExit r) t]> (goroutines w')))
      | _ => ret tt
      end
  | None => ret tt
  end.

(** [NewSubgroup(spawn, name, onExit, fields...)]: the receive at the end
    returns once the spawned goroutine has sent, and blocks for ever if
    [spawn] started none. *)
Definition NewSubgroup (spawn : SpawnFn) (name : string) (onExit : OnExit)
    (fields : list string) : M nat :=
  ch <- make_gchan ;;
  spawn name onExit (TaskSubgroup ch fields) ;;
  run_closure ch ;;
  recv_gchan ch.

(** ** Histories *)

(** What can happen to a heap: the caller makes or cancels a context of its
    own, calls one of the exported functions (with a function of its own as
    the task of [Spawn]), or the body of a spawned task ends.  The body of a
    task is not looked into, so any live goroutine may end with any result;
    the histories of a real program that makes its groups on contexts with a
    logger are among those of this machine.
    [NewSubgroup] is one event: between its [spawn] and its receive the
    spawned goroutine only allocates a group that nobody else knows yet. *)
Inductive event : Type :=
| EvNewRoot
| EvCancelRoot (id : nat) (deadline : bool)
| EvNewGroup (c : Context)
| EvNewSubgroup (parent : nat) (name : string) (onExit : OnExit) (fields : list string)
| EvSpawn (g : nat) (name : string) (onExit : OnExit) (fn : nat)
| EvFinish (tid : nat) (r : TaskResult)
| EvExit (g : nat) (e : option error).

Definition new_root : M unit :=
  w <- get ;;
  modify (set_ctxs (<[fresh (dom (ctxs w)) := None]> (ctxs w))).

Definition cancel_root (id : nat) (deadline : bool) : M unit :=
  fun w => match ctxs w !! id with
           | Some None =>
               Ok (tt, set_ctxs (<[id := Some (if deadline then DeadlineExceeded
                                               else Canceled)]> (ctxs w)) w)
           | Some (Some _) => Ok (tt, w)
           | None => Dangling
           end.

(** What the caller passes to [NewGroup]: a context whose links exist and
    that carries a logger; the spec has the logger among the inputs of the
    group, reachable through the context the caller supplies. *)
Definition check_Context (c : Context) : M unit :=
  fun w => if Context_valid (ctxs w) c && has_logger c then Ok (tt, w)
           else Dangling.

Definition finish (tid : nat) (r : TaskResult) : M unit :=
  w <- get ;;
  match goroutines w !! tid with
  | Some t =>
      Group_runTask (go_group t) (go_name t) (go_onExit t) r ;;
      w' <- get ;;
      modify (set_goroutines (delete tid (goroutines w')))
  | None => fun _ => Dangling
  end.

Definition exec (ev : event) : M unit :=
  match ev with
  | EvNewRoot => new_root
  | EvCancelRoot id deadline => cancel_root id deadline
  | EvNewGroup c => check_Context c ;; NewGroup c ;; ret tt
  | EvNewSubgroup parent name onExit fields =>
      NewSubgroup (Group_Spawn parent) name onExit fields ;; ret tt
  | EvSpawn g name onExit fn => Group_Spawn g name onExit (TaskFn fn)
  | EvFinish tid r => finish tid r
  | EvExit g e => Group_Exit g e
  end.

Fixpoint run (evs : list event) (w : World) : Result World :=
  match evs with
  | [] => Ok w
  | ev :: evs' =>
      match exec ev w with
      | Ok (_, w') => run evs' w'
      | GoPanic msg => GoPanic msg
      | Blocked => Blocked
      | Dangling => Dangling
      end
  end.

(** The heaps of the program, and those it has after [n] events. *)
Definition reachable (w : World) : Prop :=
  exists evs, run evs World0 = Ok w.

Definition reachable_in (n : nat) (w : World) : Prop :=
  exists evs, length evs = n /\ run evs World0 = Ok w.

(** ** Closed forms, for the proofs *)

(** What [exit] leaves in the struct. *)
Definition exit_Group (e : option error) (G : Group) : Group :=
  if closing G && errors_Is e (Some Canceled) then G
  else set_closing true (if bool_decide (err G = None) then set_err e G else G).

(** Two heaps that differ at most in their groups and contexts. *)
Definition same_frame (w w' : World) : Prop :=
  chans w' = chans w /\ gchans w' = gchans w /\
  goroutines w' = goroutines w /\ heap_top w' = heap_top w /\
  nextTaskID w' = nextTaskID w.

(** What the critical section of [Spawn] leaves in the struct; [ch] is the
    channel it makes when no task is running. *)
Definition Spawn_Group (ch : nat) (G : Group) : Group :=
  set_running (int_wrap (running G + 1))
    (if running G =? 0 then set_done ch G else G).

(** The argument with which [runTask] calls [exit], if it calls it; [top] is
    the address of the error it may allocate. *)
Definition reported (name : string) (onExit : OnExit) (r : TaskResult)
    (top : nat) (G : Group) : option (option error) :=
  match runTask r with
  | Some e => Some (Some e)
  | None =>
      if closing G then None
      else match onExit with
           | Continue => None
           | Exit => Some None
           | Fail =>
               Some (Some (fundamental top
                             ("task " +:+ name +:+ " terminated unexpectedly")))
           | OnExitOther _ =>
               Some (Some (fundamental top
                             ("task " +:+ name +:+ ": " +:+ OnExit_String onExit)))
           end
  end.

(** What the critical section of [runTask] leaves in the struct. *)
Definition runTask_Group (name : string) (onExit : OnExit) (r : TaskResult)
    (top : nat) (G : Group) : Group :=
  let G1 := match reported name onExit r top G with
            | Some e => exit_Group e G
            | None => G
            end in
  set_running (int_wrap (running G1 - 1)) G1.

(** ** Invariants *)

(** No goroutine is still before the send of the closure of [NewSubgroup]. *)
Definition no_closure (w : World) : Prop :=
  forall k x ch, goroutines w !! k = Some x -> closure_of ch (k, x) = false.

(** The live goroutines that [g.Spawn] started. *)
Definition tasks_of (g : nat) (m : gmap nat Goroutine) : gmap nat Goroutine :=
  filter (fun kr => go_group kr.2 = g) m.

(** The shape of the heap: the channel of every group exists and no two
    groups share one, every goroutine belongs to a group, the cancel
    function of a group is that of its context, and that context carries a
    logger. *)
Record wf (w : World) : Prop := mk_wf {
  wf_done : forall g G, groups w !! g = Some G -> is_Some (chans w !! done G);
  wf_done_inj : forall g1 g2 G1 G2,
      groups w !! g1 = Some G1 -> groups w !! g2 = Some G2 ->
      done G1 = done G2 -> g1 = g2;
  wf_group : forall k x,
      goroutines w !! k = Some x -> is_Some (groups w !! go_group x);
  wf_cancel : forall g G,
      groups w !! g = Some G ->
      cancel G = ctx G /\ exists id p, ctx G = WithCancel id p;
  wf_no_closure : no_closure w;
  wf_logger : forall g G,
      groups w !! g = Some G -> has_logger (ctx G) = true
}.

(** [running] counts the live tasks of the group, and [done] is open exactly
    while there are some. *)
Definition counted (w : World) : Prop :=
  forall g G, groups w !! g = Some G ->
    running G = Z.of_nat (size (tasks_of g (goroutines w))) /\
    (chans w !! done G = Some false <-> 0 < running G).

(** The largest [int]. *)
Definition max_int : Z := 2 ^ 63 - 1.

(** What one event keeps: the shape, at most one goroutine more, and the
    count as long as the number of goroutines fits an [int]. *)
Definition step_ok (w w' : World) : Prop :=
  wf w' /\ (size (goroutines w') <= S (size (goroutines w)))%nat /\
  (counted w -> Z.of_nat (size (goroutines w)) < max_int -> counted w').

(** How one event changes the struct of the group [g]: not at all, or as
    the critical section of [Spawn], of [runTask] or of [Exit] does. *)
Inductive group_step (w : World) (g : nat) (G : Group) : event -> Group -> Prop :=
| gs_same ev : group_step w g G ev G
| gs_spawn ev ch : group_step w g G ev (Spawn_Group ch G)
| gs_finish tid r t :
    goroutines w !! tid = Some t -> go_group t = g ->
    group_step w g G (EvFinish tid r)
      (runTask_Group (go_name t) (go_onExit t) r (heap_top w) G)
| gs_exit e : group_step w g G (EvExit g e) (exit_Group e G).

(** ** Words of the statements *)

(** [wraps e t]: [t] is [e] or is reached from [e] through [Unwrap]. *)
Inductive wraps : error -> error -> Prop :=
| wraps_here e : wraps e e
| wraps_inner e e' t : Unwrap e = Some e' -> wraps e' t -> wraps e t.

(** [sub] occurs in [s]. *)
Definition contains (s sub : string) : Prop :=
  exists pre post, s = pre +:+ sub +:+ post.

(** An event that reports no error to a group, or one of the cancellation
    class. *)
Definition quiet (ev : event) : Prop :=
  match ev with
  | EvExit _ e => e = None \/ errors_Is e (Some Canceled) = true
  | EvFinish _ r => runTask r = None \/ errors_Is (runTask r) (Some Canceled) = true
  | _ => True
  end.

(** The event [ev] reports the error [e] to the group [g], whose struct is
    [G] in the heap [w]: it is a call of [Exit] with [e], or the end of a
    task of the group for which [runTask] calls [exit] with [e]. *)
Definition reports (w : World) (g : nat) (G : Group) (ev : event) (e : error) : Prop :=
  ev = EvExit g (Some e) \/
  exists tid r t,
    ev = EvFinish tid r /\ goroutines w !! tid = Some t /\ go_group t = g /\
    reported (go_name t) (go_onExit t) r (heap_top w) G = Some (Some e).

(** ** Concrete histories *)

(** The heap after a history, for the examples. *)
Definition world_after (evs : list event) : World :=
  match run evs World0 with
  | Ok w => w
  | _ => World0
  end.

(** The struct of a group made on [Root 0] as the first group of a heap. *)
Definition Group0 (running : Z) (done : nat) (closing : bool) (err : option error)
  : Group :=
  mkGroup (WithCancel 1 (Root 0)) (WithCancel 1 (Root 0)) running done closing err.

(** A group that was told to shut down with no error. *)
Definition history_closing : list event :=
  [EvNewRoot; EvNewGroup (Root 0); EvExit 0 None].

(** A fresh group. *)
Definition history_fresh : list event :=
  [EvNewRoot; EvNewGroup (Root 0)].

(** [context.Canceled] wrapped by [errors.WithMessage]. *)
Definition wrapped_Canceled : error := withMessage 7 Canceled "read".

(** A group with one task of the caller, spawned with policy [Fail]. *)
Definition history_doomed : list event :=
  [EvNewRoot; EvNewGroup (Root 0); EvSpawn 0 "doomed" Fail 0].

(** The goroutine of that task. *)
Definition doomed : Goroutine :=
  mkGoroutine 0 (WithValue (WithCancel 1 (Root 0))) 0x0bace1d000000001
    "doomed" Fail (TaskFn 0).

(** The same group told to shut down while its task is still running. *)
Definition history_doomed_closing : list event :=
  history_doomed ++ [EvExit 0 None].

(** A group with a task of policy [Exit] and a task of policy [Continue];
    then the first returns nil; then the second returns an error. *)
Definition boom : error := fundamental 1000 "boom".

Definition history_two_tasks : list event :=
  [EvNewRoot; EvNewGroup (Root 0);
   EvSpawn 0 "a" Exit 0; EvSpawn 0 "b" Continue 1].

Definition task_a : Goroutine :=
  mkGoroutine 0 (WithValue (WithCancel 1 (Root 0))) 0x0bace1d000000001
    "a" Exit (TaskFn 0).

Definition history_exit_nil : list event :=
  history_two_tasks ++ [EvFinish 0 (Returns None)].

Definition history_exit_nil_boom : list event :=
  history_exit_nil ++ [EvFinish 1 (Returns (Some boom))].

(** Two tasks fail one after the other, then [Exit] is called with a third
    error. *)
Definition bang : error := fundamental 1001 "bang".

Definition history_two_workers : list event :=
  [EvNewRoot; EvNewGroup (Root 0);
   EvSpawn 0 "a" Continue 0; EvSpawn 0 "b" Continue 1].

Definition history_later_failures : list event :=
  [EvFinish 1 (Returns (Some bang)); EvExit 0 (Some wrapped_Canceled)].

Definition history_first_write : list event :=
  history_two_workers ++ [EvFinish 0 (Returns (Some boom))].

Definition history_all_failures : list event :=
  history_two_workers ++ EvFinish 0 (Returns (Some boom)) :: history_later_failures.

(** A fresh group, then two tasks, of which the first ends. *)
Definition history_rearmed : list event :=
  [EvSpawn 0 "a" Continue 0; EvSpawn 0 "b" Continue 1; EvFinish 0 (Returns None)].

(** ** Tactics *)

(** Unfold the plumbing of a computation. *)
Ltac mred :=
  cbv beta iota zeta delta
    [bind get modify ret load store when make_chan make_gchan go new_Group
     context_WithCancel call_cancel errors_Errorf]; simpl.


(** ** Contexts and groups along a history *)

(** A context link that is cancelled in [cs] is cancelled in [cs']. *)
Definition ctxs_grow (cs cs' : gmap nat (option error)) : Prop :=
  forall id e, cs !! id = Some (Some e) -> exists e', cs' !! id = Some (Some e').

(** How the contexts hang together: the context of a group that is closing
    is done, and every live task runs on the context of its group, with a
    logger attached. *)
Record linked (w : World) : Prop := mk_linked {
  linked_closing : forall g G,
      groups w !! g = Some G -> closing G = true ->
      Context_Done (ctxs w) (ctx G) = true;
  linked_task : forall k t,
      goroutines w !! k = Some t ->
      exists G, groups w !! go_group t = Some G /\ go_ctx t = WithValue (ctx G)
}.

(** A group whose result is set is closing. *)
Definition settled (w : World) : Prop :=
  forall g G, groups w !! g = Some G -> is_Some (err G) -> closing G = true.

(** ** More concrete histories *)

(** The first of two workers has failed. *)
Definition history_first_failure : list event :=
  history_two_workers ++ [EvFinish 0 (Returns (Some boom))].

(** The goroutines of the two workers. *)
Definition worker_a : Goroutine :=
  mkGoroutine 0 (WithValue (WithCancel 1 (Root 0))) 0x0bace1d000000001
    "a" Continue (TaskFn 0).

Definition worker_b : Goroutine :=
  mkGoroutine 0 (WithValue (WithCancel 1 (Root 0))) 0x0bace1d000000002
    "b" Continue (TaskFn 1).

(** Two groups on one context, each with one task. *)
Definition history_two_groups : list event :=
  [EvNewRoot; EvNewGroup (Root 0); EvNewGroup (Root 0);
   EvSpawn 0 "a" Continue 0; EvSpawn 1 "b" Continue 1].

(** The struct of the second of them. *)
Definition Group1 (running : Z) (done : nat) (closing : bool) (err : option error)
  : Group :=
  mkGroup (WithCancel 2 (Root 0)) (WithCancel 2 (Root 0)) running done closing err.

(** A group with a subgroup; then the group is told to shut down. *)
Definition history_subgroup : list event :=
  history_fresh ++ [EvNewSubgroup 0 "sub" Fail []].

Definition history_subgroup_closing : list event :=
  history_subgroup ++ [EvExit 0 (Some boom)].

(** An idle group whose outer context has been cancelled by its owner. *)
Definition history_outer_cancelled : list event :=
  history_fresh ++ [EvCancelRoot 0 false].

(** A group made on [context.Background()], which carries no logger. *)
Definition world_bare : World :=
  match NewGroup Background World0 with
  | Ok (_, w) => w
  | _ => World0
  end.

Definition Group_bare : Group :=
  mkGroup (WithCancel 0 Background) (WithCancel 0 Background) 0 0 false None.
(** ** Stepping through a computation *)

Lemma bind_Ok {A B} (c : M A) (k : A -> M B) w a w' :
  c w = Ok (a, w') -> bind c k w = k a w'.
Proof. intros H. unfold bind. rewrite H. reflexivity. Qed.

Lemma load_Some g w G : groups w !! g = Some G -> load g w = Ok (G, w).
Proof. intros H. unfold load. rewrite H. reflexivity. Qed.

Lemma store_Some g f w G :
  groups w !! g = Some G ->
  store g f w = Ok (tt, set_groups (<[g := f G]> (groups w)) w).
Proof. intros H. unfold store, bind, load, modify. rewrite H. reflexivity. Qed.

Lemma set_closing_id G : closing G = true -> set_closing true G = G.
Proof. destruct G; simpl; intros ->; reflexivity. Qed.

Lemma set_groups_id w : set_groups (groups w) w = w.
Proof. destruct w; reflexivity. Qed.

Lemma Group_exit_spec g e w G :
  groups w !! g = Some G ->
  exists w',
    Group_exit g e w = Ok (tt, w') /\
    groups w' = <[g := exit_Group e G]> (groups w) /\
    ctxs w' = (if closing G then ctxs w else cancel_ctx (cancel G) (ctxs w)) /\
    same_frame w w'.
Proof.
  intros Hg. unfold Group_exit, exit_Group.
  rewrite (bind_Ok _ _ _ _ _ (load_Some _ _ _ Hg)).
  destruct (closing G) eqn:Hc; simpl.
  - destruct (errors_Is e (Some Canceled)) eqn:Hi; simpl.
    + exists w. rewrite insert_id by done. by repeat split.
    + unfold bind at 1. unfold bind at 1. rewrite (load_Some _ _ _ Hg).
      case_bool_decide as He; simpl.
      * rewrite (store_Some _ _ _ _ Hg).
        unfold bind, load; simpl. rewrite lookup_insert_eq. simpl. rewrite Hc. simpl.
        eexists; split; [reflexivity|]. simpl.
        rewrite set_closing_id by done. by repeat split.
      * unfold bind, load, ret. rewrite Hg, Hc. simpl.
        exists w. rewrite set_closing_id, insert_id by done. by repeat split.
  - unfold bind at 1. unfold bind at 1. rewrite (load_Some _ _ _ Hg).
    case_bool_decide as He; simpl.
    + rewrite (store_Some _ _ _ _ Hg).
      unfold bind, load, store, bind, load, modify, call_cancel, modify; simpl.
      rewrite !lookup_insert_eq. simpl. rewrite Hc; simpl.
      rewrite !lookup_insert_eq.
      eexists; split; [reflexivity|]. simpl.
      rewrite insert_insert_eq. by repeat split.
    + unfold bind, load, store, bind, load, modify, call_cancel, modify, ret; simpl.
      rewrite Hg, Hc. simpl. rewrite Hg.
      eexists; split; [reflexivity|]. simpl. by repeat split.
Qed.

Lemma exit_Group_running e G : running (exit_Group e G) = running G.
Proof. unfold exit_Group. repeat case_match; reflexivity. Qed.

Lemma exit_Group_done e G : done (exit_Group e G) = done G.
Proof. unfold exit_Group. repeat case_match; reflexivity. Qed.

Lemma exit_Group_ctx e G : ctx (exit_Group e G) = ctx G.
Proof. unfold exit_Group. repeat case_match; reflexivity. Qed.

Lemma exit_Group_cancel e G : cancel (exit_Group e G) = cancel G.
Proof. unfold exit_Group. repeat case_match; reflexivity. Qed.

Lemma Group_Spawn_spec g name onExit task w G :
  groups w !! g = Some G -> has_logger (ctx G) = true ->
  exists w',
    Group_Spawn g name onExit task w = Ok (tt, w') /\
    groups w' = <[g := Spawn_Group (fresh (dom (chans w))) G]> (groups w) /\
    chans w' = (if running G =? 0 then <[fresh (dom (chans w)) := false]> (chans w)
                else chans w) /\
    goroutines w' =
      <[fresh (dom (goroutines w)) :=
          mkGoroutine g (WithValue (ctx G)) (int_wrap (nextTaskID w + 1))
            name onExit task]> (goroutines w) /\
    ctxs w' = ctxs w /\ gchans w' = gchans w /\ heap_top w' = heap_top w.
Proof.
  intros Hg Hlog. unfold Group_Spawn, Spawn_Group, atomic_AddInt64_nextTaskID.
  mred. rewrite Hg.
  destruct (running G =? 0) eqn:Hr; mred.
  - rewrite Hg. mred. rewrite !lookup_insert_eq. mred. rewrite !lookup_insert_eq.
    unfold logger_Get. simpl. rewrite Hlog.
    eexists; split; [reflexivity|]. simpl.
    rewrite !insert_insert_eq. by repeat split.
  - rewrite Hg. mred. rewrite !lookup_insert_eq.
    unfold logger_Get. simpl. rewrite Hlog.
    eexists; split; [reflexivity|]. simpl. by repeat split.
Qed.

(** On a context without a logger [Spawn] panics. *)
Lemma Group_Spawn_no_logger g name onExit task w G :
  groups w !! g = Some G -> has_logger (ctx G) = false ->
  exists msg, Group_Spawn g name onExit task w = GoPanic msg.
Proof.
  intros Hg Hlog. unfold Group_Spawn, Spawn_Group, atomic_AddInt64_nextTaskID.
  mred. rewrite Hg.
  destruct (running G =? 0) eqn:Hr; mred.
  - rewrite Hg. mred. rewrite !lookup_insert_eq. mred. rewrite !lookup_insert_eq.
    unfold logger_Get. simpl. rewrite Hlog. eauto.
  - rewrite Hg. mred. rewrite !lookup_insert_eq.
    unfold logger_Get. simpl. rewrite Hlog. eauto.
Qed.

Lemma Group_Spawn_logger g name onExit task w w' G :
  groups w !! g = Some G -> Group_Spawn g name onExit task w = Ok (tt, w') ->
  has_logger (ctx G) = true.
Proof.
  intros Hg H. destruct (has_logger (ctx G)) eqn:Hlog; [done|].
  destruct (Group_Spawn_no_logger g name onExit task w G Hg Hlog) as [msg Hm].
  congruence.
Qed.

Lemma Group_runTask_cases g name onExit r w G :
  groups w !! g = Some G ->
  let G' := runTask_Group name onExit r (heap_top w) G in
  (exists w',
    Group_runTask g name onExit r w = Ok (tt, w') /\
    (running G' = 0 -> chans w !! done G = Some false) /\
    groups w' = <[g := G']> (groups w) /\
    chans w' = (if running G' =? 0 then <[done G := true]> (chans w) else chans w) /\
    ctxs w' = (match reported name onExit r (heap_top w) G with
               | Some _ => if closing G then ctxs w
                           else cancel_ctx (cancel G) (ctxs w)
               | None => ctxs w
               end) /\
    goroutines w' = goroutines w /\ gchans w' = gchans w) \/
  (running G' = 0 /\ chans w !! done G = Some true /\
   Group_runTask g name onExit r w = GoPanic "close of closed channel") \/
  (running G' = 0 /\ chans w !! done G = None /\
   Group_runTask g name onExit r w = Dangling).
Proof.
  intros Hg G'.
  assert (Hexit : exists w1 G1,
    (match runTask r with
     | Some _ => Group_exit g (runTask r)
     | None =>
         G0 <- load g ;;
         if negb (closing G0) then
           match onExit with
           | Continue => ret tt
           | Exit => Group_exit g None
           | Fail =>
               e' <- errors_Errorf ("task " +:+ name +:+ " terminated unexpectedly") ;;
               Group_exit g (Some e')
           | OnExitOther _ =>
               e' <- errors_Errorf ("task " +:+ name +:+ ": " +:+ OnExit_String onExit) ;;
               Group_exit g (Some e')
           end
         else ret tt
     end) w = Ok (tt, w1) /\
    G1 = match reported name onExit r (heap_top w) G with
         | Some e => exit_Group e G
         | None => G
         end /\
    groups w1 = <[g := G1]> (groups w) /\
    ctxs w1 = (match reported name onExit r (heap_top w) G with
               | Some _ => if closing G then ctxs w
                           else cancel_ctx (cancel G) (ctxs w)
               | None => ctxs w
               end) /\
    chans w1 = chans w /\ goroutines w1 = goroutines w /\ gchans w1 = gchans w).
  { unfold reported. destruct (runTask r) as [e|] eqn:Hr.
    - destruct (Group_exit_spec g (Some e) w G Hg) as (w1 & H1 & H2 & H3 & H4 & H5 & H6 & _).
      exists w1, (exit_Group (Some e) G). by repeat split.
    - rewrite (bind_Ok _ _ _ _ _ (load_Some _ _ _ Hg)).
      destruct (closing G) eqn:Hc; simpl.
      + exists w, G. rewrite insert_id by done. by repeat split.
      + destruct onExit.
        * exists w, G. rewrite insert_id by done. by repeat split.
        * destruct (Group_exit_spec g None w G Hg) as (w1 & H1 & H2 & H3 & H4 & H5 & H6 & _).
          rewrite Hc in H3. exists w1, (exit_Group None G). by repeat split.
        * unfold bind, errors_Errorf, bind, get, modify, ret. simpl.
          match goal with |- context [Group_exit g ?e ?w0] =>
            destruct (Group_exit_spec g e w0 G Hg) as (w1 & H1 & H2 & H3 & H4 & H5 & H6 & _)
          end.
          rewrite Hc in H3. simpl in *. eexists w1, _. by repeat split.
        * unfold bind, errors_Errorf, bind, get, modify, ret. simpl.
          match goal with |- context [Group_exit g ?e ?w0] =>
            destruct (Group_exit_spec g e w0 G Hg) as (w1 & H1 & H2 & H3 & H4 & H5 & H6 & _)
          end.
          rewrite Hc in H3. simpl in *. eexists w1, _. by repeat split. }
  destruct Hexit as (w1 & G1 & Hrun & HG1 & Hgr & Hcx & Hch1 & Hgo & Hgc).
  unfold Group_runTask. cbv zeta.
  rewrite (bind_Ok _ _ _ _ _ Hrun).
  assert (Hg1 : groups w1 !! g = Some G1) by (rewrite Hgr; apply lookup_insert_eq).
  rewrite (bind_Ok _ _ _ _ _ (store_Some _ _ _ _ Hg1)).
  assert (HG' : G' = set_running (int_wrap (running G1 - 1)) G1).
  { subst G' G1. reflexivity. }
  clearbody G'. rewrite <- HG'.
  assert (Hd : done G' = done G).
  { rewrite HG', HG1. simpl. case_match; [apply exit_Group_done | done]. }
  unfold bind, load. simpl. rewrite lookup_insert_eq.
  unfold when. destruct (running G' =? 0) eqn:Hz.
  - unfold close. simpl. rewrite Hch1, Hd.
    destruct (chans w !! done G) as [[|]|] eqn:Hch.
    + right. left. split; [lia | done].
    + left. eexists; split; [reflexivity|]. simpl.
      rewrite Hgr, insert_insert_eq. by repeat split.
    + right. right. split; [lia | done].
  - left. eexists; split; [reflexivity|]. simpl.
    rewrite Hgr, insert_insert_eq. repeat split; try done. lia.
Qed.

Lemma Group_runTask_spec g name onExit r w G :
  groups w !! g = Some G ->
  let G' := runTask_Group name onExit r (heap_top w) G in
  (running G' = 0 -> chans w !! done G = Some false) ->
  exists w',
    Group_runTask g name onExit r w = Ok (tt, w') /\
    groups w' = <[g := G']> (groups w) /\
    chans w' = (if running G' =? 0 then <[done G := true]> (chans w) else chans w) /\
    ctxs w' = (match reported name onExit r (heap_top w) G with
               | Some _ => if closing G then ctxs w
                           else cancel_ctx (cancel G) (ctxs w)
               | None => ctxs w
               end) /\
    goroutines w' = goroutines w /\ gchans w' = gchans w.
Proof.
  intros Hg G' Hch.
  destruct (Group_runTask_cases g name onExit r w G Hg)
    as [(w' & H1 & _ & H2) | [(Hz & Hc & _) | (Hz & Hc & _)]].
  - exists w'. by split.
  - fold G' in Hz. rewrite (Hch Hz) in Hc. done.
  - fold G' in Hz. rewrite (Hch Hz) in Hc. done.
Qed.

Lemma fresh_lookup {A} (m : gmap nat A) : m !! fresh (dom m) = None.
Proof. apply not_elem_of_dom, is_fresh. Qed.

Lemma NewGroup_spec c w :
  exists w',
    NewGroup c w = Ok (fresh (dom (groups w)), w') /\
    groups w' =
      <[fresh (dom (groups w)) :=
          mkGroup (WithCancel (fresh (dom (ctxs w))) c)
                  (WithCancel (fresh (dom (ctxs w))) c)
                  0 (fresh (dom (chans w))) false None]> (groups w) /\
    chans w' = <[fresh (dom (chans w)) := true]> (chans w) /\
    ctxs w' = <[fresh (dom (ctxs w)) := None]> (ctxs w) /\
    gchans w' = gchans w /\ goroutines w' = goroutines w.
Proof.
  unfold NewGroup. mred. unfold close. simpl. rewrite lookup_insert_eq. simpl.
  eexists; split; [reflexivity|]. simpl. rewrite insert_insert_eq.
  by repeat split.
Qed.

Lemma finish_spec tid r w t G :
  goroutines w !! tid = Some t ->
  groups w !! go_group t = Some G ->
  let G' := runTask_Group (go_name t) (go_onExit t) r (heap_top w) G in
  (running G' = 0 -> chans w !! done G = Some false) ->
  exists w',
    finish tid r w = Ok (tt, w') /\
    groups w' = <[go_group t := G']> (groups w) /\
    chans w' = (if running G' =? 0 then <[done G := true]> (chans w) else chans w) /\
    ctxs w' = (match reported (go_name t) (go_onExit t) r (heap_top w) G with
               | Some _ => if closing G then ctxs w
                           else cancel_ctx (cancel G) (ctxs w)
               | None => ctxs w
               end) /\
    goroutines w' = delete tid (goroutines w) /\ gchans w' = gchans w.
Proof.
  intros Ht Hg G' Hch.
  destruct (Group_runTask_spec (go_group t) (go_name t) (go_onExit t) r w G Hg Hch)
    as (w1 & H1 & H2 & H3 & H4 & H5 & H6).
  unfold finish. unfold bind at 1, get at 1. rewrite Ht.
  rewrite (bind_Ok _ _ _ _ _ H1). mred.
  eexists; split; [reflexivity|]. simpl. rewrite H5. by repeat split.
Qed.

Lemma find_closure_insert ch (m : gmap nat Goroutine) tid r :
  (forall k x, m !! k = Some x -> closure_of ch (k, x) = false) ->
  closure_of ch (tid, r) = true ->
  find_closure ch (<[tid := r]> m) = Some (tid, r).
Proof.
  intros Hnone Hr. unfold find_closure.
  rewrite map_filter_insert_True by done.
  replace (filter (fun kr => closure_of ch kr = true) m) with (∅ : gmap nat Goroutine).
  - rewrite insert_empty, map_to_list_singleton. reflexivity.
  - symmetry. apply map_empty. intros k.
    apply map_lookup_filter_None. right. intros x Hx.
    rewrite (Hnone k x Hx). discriminate.
Qed.

Lemma NewSubgroup_spec parent name onExit fields w P :
  groups w !! parent = Some P ->
  no_closure w -> has_logger (ctx P) = true ->
  let c' := if (0 <? length fields)%nat then WithValue (WithValue (ctx P))
            else WithValue (ctx P) in
  let chs := if running P =? 0 then <[fresh (dom (chans w)) := false]> (chans w)
             else chans w in
  exists w' child,
    NewSubgroup (Group_Spawn parent) name onExit fields w = Ok (child, w') /\
    groups w !! child = None /\
    groups w' =
      <[child := mkGroup (WithCancel (fresh (dom (ctxs w))) c')
                         (WithCancel (fresh (dom (ctxs w))) c')
                         0 (fresh (dom chs)) false None]>
        (<[parent := Spawn_Group (fresh (dom (chans w))) P]> (groups w)) /\
    chans w' = <[fresh (dom chs) := true]> chs /\
    goroutines w' =
      <[fresh (dom (goroutines w)) :=
          mkGoroutine parent (WithValue (ctx P)) (int_wrap (nextTaskID w + 1))
            name onExit (TaskComplete child c')]> (goroutines w) /\
    ctxs w' = <[fresh (dom (ctxs w)) := None]> (ctxs w).
Proof.
  intros HP Hno Hlog c' chs.
  unfold NewSubgroup, make_gchan, run_closure, subgroup_closure.
  cbv beta iota zeta delta [bind get modify ret].
  set (gch := fresh (dom (gchans w))).
  set (w0 := set_gchans (<[gch := None]> (gchans w)) w).
  destruct (Group_Spawn_spec parent name onExit (TaskSubgroup gch fields) w0 P HP Hlog)
    as (w1 & H1 & Hgr1 & Hch1 & Hgo1 & Hcx1 & Hgc1 & _).
  simpl in Hgr1, Hch1, Hgo1, Hcx1, Hgc1.
  rewrite H1, Hgo1.
  rewrite (find_closure_insert gch (goroutines w)); cycle 1.
  { intros k x Hx. eapply Hno, Hx. }
  { unfold closure_of. simpl. by rewrite bool_decide_eq_true. }
  simpl. fold c'.
  destruct (NewGroup_spec c' w1) as (w2 & H2 & Hgr2 & Hch2 & Hcx2 & Hgc2 & Hgo2).
  rewrite H2. unfold send_gchan. rewrite Hgc2, Hgc1, lookup_insert_eq.
  unfold recv_gchan. simpl. rewrite lookup_insert_eq.
  eexists _, _; split; [reflexivity|]. simpl.
  rewrite Hgr2, Hch2, Hcx2, Hgo2, Hgr1, Hch1, Hcx1, Hgo1.
  fold chs. rewrite insert_insert_eq.
  assert (Hd : dom (<[parent := Spawn_Group (fresh (dom (chans w))) P]> (groups w))
               = dom (groups w)).
  { apply dom_insert_lookup_L. by rewrite HP. }
  rewrite Hd. split; [apply fresh_lookup|]. by repeat split.
Qed.

(** ** Counting the tasks of a group *)

Lemma int_wrap_small z : - 2 ^ 63 <= z < 2 ^ 63 -> int_wrap z = z.
Proof. intros H. unfold int_wrap. rewrite Z.mod_small; lia. Qed.

Example int_wrap_overflow : int_wrap (max_int + 1) = - 2 ^ 63.
Proof. reflexivity. Qed.

Lemma tasks_of_le g (m : gmap nat Goroutine) :
  (size (tasks_of g m) <= size m)%nat.
Proof. apply map_size_filter. Qed.

Lemma tasks_of_insert_new g (m : gmap nat Goroutine) tid r :
  m !! tid = None ->
  size (tasks_of g (<[tid := r]> m)) =
  (if decide (go_group r = g) then S (size (tasks_of g m)) else size (tasks_of g m)).
Proof.
  intros Hm. unfold tasks_of. case_decide as Hg.
  - rewrite map_filter_insert_True by done.
    apply map_size_insert_None, map_lookup_filter_None. left. done.
  - rewrite map_filter_insert_not'; [done | done |].
    intros y Hy. congruence.
Qed.

Lemma tasks_of_insert_same g (m : gmap nat Goroutine) tid r r0 :
  m !! tid = Some r0 -> go_group r0 = go_group r ->
  size (tasks_of g (<[tid := r]> m)) = size (tasks_of g m).
Proof.
  intros Hm Hg. unfold tasks_of.
  destruct (decide (go_group r = g)) as [Hr|Hr].
  - rewrite map_filter_insert_True by done.
    apply map_size_insert_Some. exists r0.
    apply map_lookup_filter_Some. split; [done|]. simpl. congruence.
  - rewrite map_filter_insert_not'; [done | done |].
    intros y Hy. simpl. congruence.
Qed.

Lemma tasks_of_delete g (m : gmap nat Goroutine) tid r :
  m !! tid = Some r ->
  size (tasks_of g m) =
  (if decide (go_group r = g) then S (size (tasks_of g (delete tid m)))
   else size (tasks_of g (delete tid m))).
Proof.
  intros Hm.
  rewrite <- (insert_delete_id m tid r Hm) at 1.
  apply tasks_of_insert_new, lookup_delete_eq.
Qed.

Lemma tasks_of_empty g (m : gmap nat Goroutine) :
  (forall k x, m !! k = Some x -> go_group x <> g) ->
  size (tasks_of g m) = 0%nat.
Proof.
  intros H. apply map_size_empty_iff, map_empty. intros k.
  apply map_lookup_filter_None. right. intros x Hx. simpl. by apply (H k).
Qed.

(** ** The shape of the heap is kept *)

Lemma wf_update w w' g G G' :
  wf w -> groups w !! g = Some G ->
  groups w' = <[g := G']> (groups w) ->
  ctx G' = ctx G -> cancel G' = cancel G ->
  (done G' = done G \/ chans w !! done G' = None) ->
  is_Some (chans w' !! done G') ->
  (forall ch, is_Some (chans w !! ch) -> is_Some (chans w' !! ch)) ->
  (forall k x, goroutines w' !! k = Some x ->
     goroutines w !! k = Some x \/
     (go_group x = g /\ forall ch, closure_of ch (k, x) = false)) ->
  wf w'.
Proof.
  intros Hwf Hg Hgr Hctx Hcan Hdone Hnew Hmono Hgo.
  assert (Hold : forall g0 G0, g0 <> g -> groups w' !! g0 = Some G0 ->
                               groups w !! g0 = Some G0).
  { intros g0 G0 Hne H0. rewrite Hgr, lookup_insert_ne in H0; done. }
  assert (Hme : forall G0, groups w' !! g = Some G0 -> G0 = G').
  { intros G0 H0. rewrite Hgr, lookup_insert_eq in H0. congruence. }
  assert (Hsep : forall g0 G0, g0 <> g -> groups w !! g0 = Some G0 ->
                               done G0 <> done G').
  { intros g0 G0 Hne H0 Heq. destruct Hdone as [Hd|Hd].
    - apply Hne. eapply (wf_done_inj w Hwf); eauto. congruence.
    - destruct (wf_done w Hwf _ _ H0) as [b Hb]. congruence. }
  split.
  - intros g0 G0 H0. destruct (decide (g0 = g)) as [->|Hne].
    + by rewrite (Hme _ H0).
    + eapply Hmono, (wf_done w Hwf), Hold; eauto.
  - intros g1 g2 G1 G2 H1 H2 Heq.
    destruct (decide (g1 = g)) as [->|Hn1], (decide (g2 = g)) as [->|Hn2];
      try done.
    + rewrite (Hme _ H1) in Heq. exfalso.
      eapply (Hsep g2 G2); eauto.
    + rewrite (Hme _ H2) in Heq. exfalso.
      eapply (Hsep g1 G1); eauto.
    + eapply (wf_done_inj w Hwf); eauto.
  - intros k x Hx. rewrite Hgr. apply lookup_insert_is_Some'.
    destruct (Hgo k x Hx) as [Hx'|[Hx' _]]; [right | left; done].
    eapply (wf_group w Hwf); eauto.
  - intros g0 G0 H0. destruct (decide (g0 = g)) as [->|Hne].
    + rewrite (Hme _ H0), Hctx, Hcan. eapply (wf_cancel w Hwf); eauto.
    + eapply (wf_cancel w Hwf), Hold; eauto.
  - intros k x ch Hx. destruct (Hgo k x Hx) as [Hx'|[_ Hx']]; [|done].
    eapply (wf_no_closure w Hwf); eauto.
  - intros g0 G0 H0. destruct (decide (g0 = g)) as [->|Hne].
    + rewrite (Hme _ H0), Hctx. eapply (wf_logger w Hwf); eauto.
    + eapply (wf_logger w Hwf), Hold; eauto.
Qed.

Lemma wf_new_group w w' g Gn :
  wf w -> groups w !! g = None ->
  groups w' = <[g := Gn]> (groups w) ->
  chans w !! done Gn = None ->
  is_Some (chans w' !! done Gn) ->
  (forall ch, is_Some (chans w !! ch) -> is_Some (chans w' !! ch)) ->
  cancel Gn = ctx Gn -> (exists id p, ctx Gn = WithCancel id p) ->
  goroutines w' = goroutines w ->
  has_logger (ctx Gn) = true ->
  wf w'.
Proof.
  intros Hwf Hg Hgr Hfresh Hnew Hmono Hcan Hctx Hgo Hlog.
  assert (Hold : forall g0 G0, g0 <> g -> groups w' !! g0 = Some G0 ->
                               groups w !! g0 = Some G0).
  { intros g0 G0 Hne H0. rewrite Hgr, lookup_insert_ne in H0; done. }
  assert (Hme : forall G0, groups w' !! g = Some G0 -> G0 = Gn).
  { intros G0 H0. rewrite Hgr, lookup_insert_eq in H0. congruence. }
  assert (Hsep : forall g0 G0, groups w !! g0 = Some G0 -> done G0 <> done Gn).
  { intros g0 G0 H0 Heq. destruct (wf_done w Hwf _ _ H0) as [b Hb]. congruence. }
  split.
  - intros g0 G0 H0. destruct (decide (g0 = g)) as [->|Hne].
    + by rewrite (Hme _ H0).
    + eapply Hmono, (wf_done w Hwf), Hold; eauto.
  - intros g1 g2 G1 G2 H1 H2 Heq.
    destruct (decide (g1 = g)) as [->|Hn1], (decide (g2 = g)) as [->|Hn2];
      try done.
    + rewrite (Hme _ H1) in Heq. exfalso. eapply (Hsep g2 G2); eauto.
    + rewrite (Hme _ H2) in Heq. exfalso. eapply (Hsep g1 G1); eauto.
    + eapply (wf_done_inj w Hwf); eauto.
  - intros k x Hx. rewrite Hgr. apply lookup_insert_is_Some'. right.
    rewrite Hgo in Hx. eapply (wf_group w Hwf); eauto.
  - intros g0 G0 H0. destruct (decide (g0 = g)) as [->|Hne].
    + by rewrite (Hme _ H0).
    + eapply (wf_cancel w Hwf), Hold; eauto.
  - intros k x ch Hx. rewrite Hgo in Hx. eapply (wf_no_closure w Hwf); eauto.
  - intros g0 G0 H0. destruct (decide (g0 = g)) as [->|Hne].
    + by rewrite (Hme _ H0).
    + eapply (wf_logger w Hwf), Hold; eauto.
Qed.

Lemma wf_frame w w' :
  wf w -> groups w' = groups w -> chans w' = chans w ->
  goroutines w' = goroutines w -> wf w'.
Proof.
  intros [H1 H2 H3 H4 H5 H6] Hg Hc Ho. split; unfold no_closure;
    rewrite ?Hg, ?Hc, ?Ho; done.
Qed.

(** ** The count is kept *)

Lemma counted_frame w w' :
  counted w -> groups w' = groups w -> chans w' = chans w ->
  goroutines w' = goroutines w -> counted w'.
Proof. intros H Hg Hc Ho g G. rewrite Hg, Hc, Ho. apply H. Qed.

Lemma counted_exit w w' g G G' :
  counted w -> groups w !! g = Some G ->
  running G' = running G -> done G' = done G ->
  groups w' = <[g := G']> (groups w) ->
  chans w' = chans w -> goroutines w' = goroutines w ->
  counted w'.
Proof.
  intros Hc Hg Hr Hd Hgr Hch Hgo g0 G0 H0. rewrite Hch, Hgo.
  rewrite Hgr in H0. destruct (decide (g0 = g)) as [->|Hne].
  - rewrite lookup_insert_eq in H0. injection H0 as <-.
    rewrite Hr, Hd. by apply Hc.
  - rewrite lookup_insert_ne in H0 by done. by apply Hc.
Qed.

Lemma counted_spawn w w' g G tid r :
  wf w -> counted w -> groups w !! g = Some G ->
  goroutines w !! tid = None -> go_group r = g ->
  Z.of_nat (size (goroutines w)) < max_int ->
  groups w' = <[g := Spawn_Group (fresh (dom (chans w))) G]> (groups w) ->
  chans w' = (if running G =? 0 then <[fresh (dom (chans w)) := false]> (chans w)
              else chans w) ->
  goroutines w' = <[tid := r]> (goroutines w) ->
  counted w'.
Proof.
  intros Hwf Hc Hg Htid Hr Hbound Hgr Hch Hgo g0 G0 H0.
  rewrite Hgo, tasks_of_insert_new by done.
  rewrite Hgr in H0. destruct (decide (g0 = g)) as [->|Hne].
  - rewrite lookup_insert_eq in H0. injection H0 as <-.
    destruct (Hc g G Hg) as [Hrun Hopen].
    pose proof (tasks_of_le g (goroutines w)) as Hle.
    rewrite decide_True by done.
    unfold Spawn_Group. simpl. unfold max_int in Hbound.
    rewrite int_wrap_small by lia. split; [lia|].
    rewrite Hch. destruct (running G =? 0) eqn:Hz; simpl.
    + rewrite lookup_insert_eq. split; [lia | done].
    + rewrite Hopen. lia.
  - rewrite lookup_insert_ne in H0 by done.
    rewrite decide_False by congruence.
    destruct (Hc g0 G0 H0) as [Hrun Hopen]. split; [done|].
    rewrite <- Hopen, Hch. destruct (running G =? 0); [|done].
    rewrite lookup_insert_ne; [done|].
    intros Heq. destruct (wf_done w Hwf _ _ H0) as [b Hb].
    rewrite <- Heq, fresh_lookup in Hb. done.
Qed.

Lemma counted_finish w w' tid t G G' :
  wf w -> counted w -> goroutines w !! tid = Some t ->
  groups w !! go_group t = Some G ->
  Z.of_nat (size (goroutines w)) <= max_int ->
  running G' = int_wrap (running G - 1) -> done G' = done G ->
  groups w' = <[go_group t := G']> (groups w) ->
  chans w' = (if running G' =? 0 then <[done G := true]> (chans w) else chans w) ->
  goroutines w' = delete tid (goroutines w) ->
  counted w'.
Proof.
  intros Hwf Hc Htid Hg Hbound Hr Hd Hgr Hch Hgo g0 G0 H0.
  rewrite Hgo. pose proof (tasks_of_delete g0 _ _ _ Htid) as Hdel.
  rewrite Hgr in H0. destruct (decide (g0 = go_group t)) as [->|Hne].
  - rewrite lookup_insert_eq in H0. injection H0 as <-.
    destruct (Hc _ G Hg) as [Hrun Hopen].
    pose proof (tasks_of_le (go_group t) (goroutines w)) as Hle.
    rewrite decide_True in Hdel by done.
    unfold max_int in Hbound.
    rewrite int_wrap_small in Hr by lia. split; [lia|].
    rewrite Hch, Hd. destruct (running G' =? 0) eqn:Hz.
    + rewrite lookup_insert_eq. split; [done | lia].
    + rewrite Hopen. lia.
  - rewrite lookup_insert_ne in H0 by done.
    rewrite decide_False in Hdel by congruence. rewrite <- Hdel.
    destruct (Hc g0 G0 H0) as [Hrun Hopen]. split; [done|].
    rewrite <- Hopen, Hch. destruct (running G' =? 0); [|done].
    rewrite lookup_insert_ne; [done|].
    intros Heq. apply Hne. symmetry. eapply (wf_done_inj w Hwf); eauto.
Qed.

Lemma counted_new_group w w' g Gn :
  wf w -> counted w -> groups w !! g = None ->
  groups w' = <[g := Gn]> (groups w) ->
  running Gn = 0 -> chans w !! done Gn = None ->
  chans w' = <[done Gn := true]> (chans w) ->
  goroutines w' = goroutines w ->
  counted w'.
Proof.
  intros Hwf Hc Hg Hgr Hr Hfresh Hch Hgo g0 G0 H0.
  rewrite Hgo, Hch. rewrite Hgr in H0.
  destruct (decide (g0 = g)) as [->|Hne].
  - rewrite lookup_insert_eq in H0. injection H0 as <-.
    rewrite tasks_of_empty, Hr, lookup_insert_eq.
    + split; [done|]. split; [done | lia].
    + intros k x Hx Heq. destruct (wf_group w Hwf _ _ Hx) as [G0 HG0].
      congruence.
  - rewrite lookup_insert_ne in H0 by done.
    destruct (Hc g0 G0 H0) as [Hrun Hopen]. split; [done|].
    rewrite <- Hopen. rewrite lookup_insert_ne; [done|].
    intros Heq. destruct (wf_done w Hwf _ _ H0) as [b Hb]. congruence.
Qed.

(** ** One event *)

Lemma runTask_Group_running name onExit r top G :
  running (runTask_Group name onExit r top G) = int_wrap (running G - 1).
Proof.
  unfold runTask_Group. simpl. case_match; [|done].
  by rewrite exit_Group_running.
Qed.

Lemma runTask_Group_done name onExit r top G :
  done (runTask_Group name onExit r top G) = done G.
Proof. unfold runTask_Group. simpl. case_match; [apply exit_Group_done | done]. Qed.

Lemma runTask_Group_ctx name onExit r top G :
  ctx (runTask_Group name onExit r top G) = ctx G.
Proof. unfold runTask_Group. simpl. case_match; [apply exit_Group_ctx | done]. Qed.

Lemma runTask_Group_cancel name onExit r top G :
  cancel (runTask_Group name onExit r top G) = cancel G.
Proof. unfold runTask_Group. simpl. case_match; [apply exit_Group_cancel | done]. Qed.

Lemma Group_exit_None g e w : groups w !! g = None -> Group_exit g e w = Dangling.
Proof. intros H. unfold Group_exit, bind, load. by rewrite H. Qed.

Lemma Group_Spawn_None g name onExit task w :
  groups w !! g = None -> Group_Spawn g name onExit task w = Dangling.
Proof.
  intros H. unfold Group_Spawn, atomic_AddInt64_nextTaskID. mred. by rewrite H.
Qed.

Lemma NewSubgroup_None parent name onExit fields w :
  groups w !! parent = None ->
  NewSubgroup (Group_Spawn parent) name onExit fields w = Dangling.
Proof.
  intros H. unfold NewSubgroup, make_gchan.
  cbv beta iota zeta delta [bind get modify ret].
  rewrite Group_Spawn_None; done.
Qed.

Lemma step_frame w w' :
  wf w -> groups w' = groups w -> chans w' = chans w ->
  goroutines w' = goroutines w -> step_ok w w'.
Proof.
  intros Hwf Hg Hc Ho. split; [by eapply wf_frame|]. split; [rewrite Ho; lia|].
  intros Hcnt _. by eapply counted_frame.
Qed.

Lemma step_Exit g e w w' :
  wf w -> Group_exit g e w = Ok (tt, w') -> step_ok w w'.
Proof.
  intros Hwf H. destruct (groups w !! g) as [G|] eqn:Hg.
  2: { by rewrite Group_exit_None in H. }
  destruct (Group_exit_spec g e w G Hg) as (w1 & H1 & Hgr & _ & Hch & _ & Hgo & _).
  rewrite H1 in H. injection H as ->.
  split; [|split].
  - eapply (wf_update w w' g G _ Hwf Hg Hgr);
      auto using exit_Group_ctx, exit_Group_cancel.
    + left. apply exit_Group_done.
    + rewrite Hch, exit_Group_done. eapply (wf_done w Hwf); eauto.
    + by rewrite Hch.
    + rewrite Hgo. eauto.
  - rewrite Hgo. lia.
  - intros Hcnt _. eapply (counted_exit w w' g G);
      eauto using exit_Group_running, exit_Group_done.
Qed.

Lemma chans_insert_mono (m : gmap nat bool) ch b ch' :
  is_Some (m !! ch') -> is_Some (<[ch := b]> m !! ch').
Proof. intros H. apply lookup_insert_is_Some'. by right. Qed.

Lemma step_NewGroup c w g w' :
  wf w -> has_logger c = true -> NewGroup c w = Ok (g, w') -> step_ok w w'.
Proof.
  intros Hwf Hlog H.
  destruct (NewGroup_spec c w) as (w1 & H1 & Hgr & Hch & _ & _ & Hgo).
  rewrite H1 in H. injection H as <- ->.
  split; [|split].
  - eapply (wf_new_group w w' _ _ Hwf (fresh_lookup _) Hgr); simpl.
    + apply fresh_lookup.
    + rewrite Hch. by rewrite lookup_insert_eq.
    + intros ch. rewrite Hch. apply chans_insert_mono.
    + done.
    + eauto.
    + done.
    + done.
  - rewrite Hgo. lia.
  - intros Hcnt _.
    eapply (counted_new_group w w' _ _ Hwf Hcnt (fresh_lookup _) Hgr); simpl;
      try done.
    apply fresh_lookup.
Qed.

Lemma step_Spawn g name onExit task w w' :
  wf w -> (forall ch, closure_of ch (0%nat, mkGoroutine g (Root 0) 0 name onExit task) = false) ->
  Group_Spawn g name onExit task w = Ok (tt, w') -> step_ok w w'.
Proof.
  intros Hwf Htask H. destruct (groups w !! g) as [G|] eqn:Hg.
  2: { by rewrite Group_Spawn_None in H. }
  destruct (Group_Spawn_spec g name onExit task w G Hg (wf_logger w Hwf _ _ Hg))
    as (w1 & H1 & Hgr & Hch & Hgo & _).
  rewrite H1 in H. injection H as ->.
  split; [|split].
  - eapply (wf_update w w' g G _ Hwf Hg Hgr).
    + unfold Spawn_Group. simpl. by destruct (running G =? 0).
    + unfold Spawn_Group. simpl. by destruct (running G =? 0).
    + unfold Spawn_Group. simpl. destruct (running G =? 0); simpl.
      * right. apply fresh_lookup.
      * by left.
    + rewrite Hch. unfold Spawn_Group. simpl. destruct (running G =? 0); simpl.
      * by rewrite lookup_insert_eq.
      * eapply (wf_done w Hwf); eauto.
    + intros ch. rewrite Hch. destruct (running G =? 0); [|done].
      apply chans_insert_mono.
    + intros k x. rewrite Hgo. intros Hx.
      apply lookup_insert_Some in Hx as [[<- <-]|[_ Hx]]; [right | by left].
      split; [done|]. intros ch. apply (Htask ch).
  - rewrite Hgo, map_size_insert_None by apply fresh_lookup. lia.
  - intros Hcnt Hb.
    refine (counted_spawn w w' g G _ _ Hwf Hcnt Hg (fresh_lookup _) _ Hb Hgr Hch Hgo).
    done.
Qed.

Lemma finish_cases tid r w t G :
  goroutines w !! tid = Some t ->
  groups w !! go_group t = Some G ->
  let G' := runTask_Group (go_name t) (go_onExit t) r (heap_top w) G in
  (exists w',
    finish tid r w = Ok (tt, w') /\
    (running G' = 0 -> chans w !! done G = Some false) /\
    groups w' = <[go_group t := G']> (groups w) /\
    chans w' = (if running G' =? 0 then <[done G := true]> (chans w) else chans w) /\
    ctxs w' = (match reported (go_name t) (go_onExit t) r (heap_top w) G with
               | Some _ => if closing G then ctxs w
                           else cancel_ctx (cancel G) (ctxs w)
               | None => ctxs w
               end) /\
    goroutines w' = delete tid (goroutines w) /\ gchans w' = gchans w) \/
  (running G' = 0 /\ chans w !! done G = Some true /\
   finish tid r w = GoPanic "close of closed channel") \/
  (running G' = 0 /\ chans w !! done G = None /\ finish tid r w = Dangling).
Proof.
  intros Ht Hg G'.
  assert (Hf : finish tid r w =
               (Group_runTask (go_group t) (go_name t) (go_onExit t) r ;;
                w' <- get ;;
                modify (set_goroutines (delete tid (goroutines w')))) w).
  { unfold finish. unfold bind at 1, get at 1. by rewrite Ht. }
  rewrite !Hf. clear Hf.
  destruct (Group_runTask_cases (go_group t) (go_name t) (go_onExit t) r w G Hg)
    as [(w1 & H1 & Hpre & H2 & H3 & H4 & H5 & H6) | [(Hz & Hc & H1) | (Hz & Hc & H1)]].
  - left. rewrite (bind_Ok _ _ _ _ _ H1). mred.
    eexists; split; [reflexivity|]. simpl. rewrite H5. by repeat split.
  - right. left. unfold bind. rewrite H1. done.
  - right. right. unfold bind. rewrite H1. done.
Qed.

Lemma step_finish tid r w w' :
  wf w -> finish tid r w = Ok (tt, w') -> step_ok w w'.
Proof.
  intros Hwf H. destruct (goroutines w !! tid) as [t|] eqn:Ht.
  2: { unfold finish, bind, get in H. rewrite Ht in H. done. }
  destruct (wf_group w Hwf _ _ Ht) as [G Hg].
  destruct (finish_cases tid r w t G Ht Hg)
    as [(w1 & H1 & Hpre & Hgr & Hch & _ & Hgo & _) | [(_ & _ & H1) | (_ & _ & H1)]];
    rewrite H1 in H; [|done..].
  injection H as ->.
  split; [|split].
  - eapply (wf_update w w' _ G _ Hwf Hg Hgr).
    + apply runTask_Group_ctx.
    + apply runTask_Group_cancel.
    + left. apply runTask_Group_done.
    + rewrite Hch, runTask_Group_done.
      destruct (_ =? 0); [by rewrite lookup_insert_eq|].
      eapply (wf_done w Hwf); eauto.
    + intros ch. rewrite Hch. destruct (_ =? 0); [|done].
      apply chans_insert_mono.
    + intros k x. rewrite Hgo. intros Hx.
      apply lookup_delete_Some in Hx as [_ Hx]. by left.
  - rewrite Hgo, map_size_delete, Ht. simpl. lia.
  - intros Hcnt Hb.
    refine (counted_finish w w' tid t G _ Hwf Hcnt Ht Hg _ _ _ Hgr Hch Hgo).
    + lia.
    + apply runTask_Group_running.
    + apply runTask_Group_done.
Qed.

Lemma step_NewSubgroup parent name onExit fields w child w' :
  wf w -> NewSubgroup (Group_Spawn parent) name onExit fields w = Ok (child, w') ->
  step_ok w w'.
Proof.
  intros Hwf H. destruct (groups w !! parent) as [P|] eqn:HP.
  2: { by rewrite NewSubgroup_None in H. }
  destruct (NewSubgroup_spec parent name onExit fields w P HP (wf_no_closure w Hwf)
              (wf_logger w Hwf _ _ HP))
    as (w1 & child1 & H1 & Hfresh & Hgr & Hch & Hgo & _).
  rewrite H1 in H. injection H as -> ->.
  set (c' := if (0 <? length fields)%nat then WithValue (WithValue (ctx P))
             else WithValue (ctx P)) in *.
  set (chs := if running P =? 0 then <[fresh (dom (chans w)) := false]> (chans w)
              else chans w) in *.
  set (t := mkGoroutine parent (WithValue (ctx P)) (int_wrap (nextTaskID w + 1))
              name onExit (TaskComplete child c')) in *.
  set (wm := mkWorld (nextTaskID w) (heap_top w) chs (gchans w) (ctxs w)
               (<[parent := Spawn_Group (fresh (dom (chans w))) P]> (groups w))
               (<[fresh (dom (goroutines w)) := t]> (goroutines w))).
  assert (Hwm : wf wm).
  { eapply (wf_update w wm parent P _ Hwf HP eq_refl); simpl.
    - unfold Spawn_Group. simpl. by destruct (running P =? 0).
    - unfold Spawn_Group. simpl. by destruct (running P =? 0).
    - unfold Spawn_Group. simpl. destruct (running P =? 0); simpl.
      + right. apply fresh_lookup.
      + by left.
    - unfold Spawn_Group, chs. simpl. destruct (running P =? 0); simpl.
      + by rewrite lookup_insert_eq.
      + eapply (wf_done w Hwf); eauto.
    - intros ch. unfold chs. destruct (running P =? 0); [|done].
      apply chans_insert_mono.
    - intros k x Hx.
      apply lookup_insert_Some in Hx as [[<- <-]|[_ Hx]]; [right | by left].
      done. }
  assert (Hcm : groups wm !! child = None).
  { simpl. rewrite lookup_insert_ne; [done|]. intros <-. congruence. }
  split; [|split].
  - eapply (wf_new_group wm w' _ _ Hwm Hcm Hgr); simpl.
    + apply fresh_lookup.
    + rewrite Hch. by rewrite lookup_insert_eq.
    + intros ch. rewrite Hch. apply chans_insert_mono.
    + done.
    + eauto.
    + done.
    + unfold c'. by destruct (0 <? length fields)%nat.
  - rewrite Hgo, map_size_insert_None by apply fresh_lookup. lia.
  - intros Hcnt Hb.
    assert (Hcntm : counted wm).
    { refine (counted_spawn w wm parent P _ t Hwf Hcnt HP (fresh_lookup _) _ Hb
                eq_refl eq_refl eq_refl). done. }
    eapply (counted_new_group wm w' _ _ Hwm Hcntm Hcm Hgr); simpl; try done.
    apply fresh_lookup.
Qed.

Lemma exec_step ev w w' :
  wf w -> exec ev w = Ok (tt, w') -> step_ok w w'.
Proof.
  intros Hwf H. destruct ev as [|id dl|c|parent name onExit fields|g name onExit fn|tid r|g e];
    simpl in H.
  - unfold new_root in H. mred. simpl in H. injection H as <-.
    by apply step_frame.
  - unfold cancel_root in H. destruct (ctxs w !! id) as [[e|]|]; [| |done];
      injection H as <-; by apply step_frame.
  - unfold bind, check_Context, ret in H.
    destruct (Context_valid (ctxs w) c); [|done]. simpl in H.
    destruct (has_logger c) eqn:Hlog; [|done].
    destruct (NewGroup c w) as [[g w1]| | |] eqn:HN; [|done..].
    injection H as <-. eapply step_NewGroup; eauto.
  - unfold bind at 1 in H.
    destruct (NewSubgroup _ _ _ _ w) as [[g w1]| | |] eqn:HN; [|done..].
    unfold ret in H. injection H as <-. eapply step_NewSubgroup; eauto.
  - eapply step_Spawn; eauto. done.
  - eapply step_finish; eauto.
  - eapply step_Exit; eauto.
Qed.

(** ** Histories *)

Lemma wf_World0 : wf World0.
Proof. split; unfold no_closure; simpl; intros; simplify_map_eq. Qed.

Lemma counted_World0 : counted World0.
Proof. intros g G H. simpl in H. simplify_map_eq. Qed.

Lemma run_cons ev evs w w' :
  run (ev :: evs) w = Ok w' ->
  exists w1, exec ev w = Ok (tt, w1) /\ run evs w1 = Ok w'.
Proof.
  simpl. destruct (exec ev w) as [[[] w1]| | |]; [|done..]. eauto.
Qed.

Lemma run_app evs1 evs2 w w1 w2 :
  run evs1 w = Ok w1 -> run evs2 w1 = Ok w2 -> run (evs1 ++ evs2) w = Ok w2.
Proof.
  revert w. induction evs1 as [|ev evs1 IH]; intros w H1 H2; simpl in *.
  - by injection H1 as ->.
  - destruct (exec ev w) as [[[] w']| | |]; [|done..]. eauto.
Qed.

Lemma run_wf evs w w' : wf w -> run evs w = Ok w' -> wf w'.
Proof.
  revert w. induction evs as [|ev evs IH]; intros w Hwf H.
  - simpl in H. by injection H as <-.
  - apply run_cons in H as (w1 & H1 & H2).
    eapply IH; [|done]. by apply (exec_step ev w w1).
Qed.

Lemma run_counted evs w w' :
  wf w -> counted w ->
  Z.of_nat (size (goroutines w)) + Z.of_nat (length evs) <= max_int ->
  run evs w = Ok w' ->
  counted w' /\
  (size (goroutines w') <= size (goroutines w) + length evs)%nat.
Proof.
  revert w. induction evs as [|ev evs IH]; intros w Hwf Hc Hb H.
  - simpl in H. injection H as <-. split; [done | lia].
  - apply run_cons in H as (w1 & H1 & H2).
    destruct (exec_step ev w w1 Hwf H1) as (Hwf1 & Hsz & Hc1).
    simpl length in *.
    destruct (IH w1 Hwf1) as [Hc' Hsz']; [apply Hc1; [done | lia] | lia | done |].
    split; [done | lia].
Qed.

Lemma reachable_in_reachable n w : reachable_in n w -> reachable w.
Proof. intros (evs & _ & H). by exists evs. Qed.

Lemma reachable_wf w : reachable w -> wf w.
Proof. intros [evs H]. eapply run_wf; [apply wf_World0 | done]. Qed.

Lemma reachable_in_counted n w :
  reachable_in n w -> Z.of_nat n <= max_int ->
  counted w /\ (size (goroutines w) <= n)%nat.
Proof.
  intros (evs & <- & H) Hb.
  assert (H0 : size (goroutines World0) = 0%nat) by apply map_size_empty.
  destruct (run_counted evs World0 w wf_World0 counted_World0) as [Hc Hs];
    [lia | done |].
  split; [done | lia].
Qed.

(** ** What an event does to one group and to the closed channels *)

Lemma insert_closed (m : gmap nat bool) ch ch' :
  m !! ch = Some true -> <[ch' := true]> m !! ch = Some true.
Proof.
  intros H. destruct (decide (ch' = ch)) as [->|Hne].
  - apply lookup_insert_eq.
  - by rewrite lookup_insert_ne.
Qed.

Lemma insert_fresh_closed (m : gmap nat bool) ch b :
  m !! ch = Some true -> <[fresh (dom m) := b]> m !! ch = Some true.
Proof.
  intros H. rewrite lookup_insert_ne; [done|].
  intros <-. by rewrite fresh_lookup in H.
Qed.

Lemma exec_group ev w w' g G :
  wf w -> exec ev w = Ok (tt, w') -> groups w !! g = Some G ->
  exists G', groups w' !! g = Some G' /\ group_step w g G ev G'.
Proof.
  intros Hwf H Hg.
  destruct ev as [|id dl|c|parent name onExit fields|g0 name onExit fn|tid r|g0 e];
    simpl in H.
  - unfold new_root in H. mred. simpl in H. injection H as <-.
    exists G. split; [done | constructor].
  - unfold cancel_root in H. destruct (ctxs w !! id) as [[e|]|]; [| |done];
      injection H as <-; (exists G; split; [done | constructor]).
  - unfold bind, check_Context, ret in H.
    destruct (Context_valid (ctxs w) c); [|done]. simpl in H.
    destruct (has_logger c) eqn:Hlog; [|done].
    destruct (NewGroup_spec c w) as (w1 & H1 & Hgr & _).
    rewrite H1 in H. injection H as <-.
    exists G. split; [|constructor].
    rewrite Hgr, lookup_insert_ne; [done|].
    intros <-. by rewrite fresh_lookup in Hg.
  - unfold bind at 1 in H.
    destruct (groups w !! parent) as [P|] eqn:HP.
    2: { by rewrite NewSubgroup_None in H. }
    destruct (NewSubgroup_spec parent name onExit fields w P HP (wf_no_closure w Hwf)
              (wf_logger w Hwf _ _ HP))
      as (w1 & child & H1 & Hfresh & Hgr & _).
    rewrite H1 in H. unfold ret in H. injection H as <-.
    assert (child <> g) by (intros ->; congruence).
    rewrite Hgr, lookup_insert_ne by done.
    destruct (decide (parent = g)) as [->|Hne].
    + rewrite lookup_insert_eq. eexists; split; [done|].
      replace P with G by congruence. apply gs_spawn.
    + rewrite lookup_insert_ne by done. exists G. split; [done | constructor].
  - destruct (groups w !! g0) as [G0|] eqn:Hg0.
    2: { by rewrite Group_Spawn_None in H. }
    destruct (Group_Spawn_spec g0 name onExit (TaskFn fn) w G0 Hg0
                (wf_logger w Hwf _ _ Hg0))
      as (w1 & H1 & Hgr & _).
    rewrite H1 in H. injection H as <-. rewrite Hgr.
    destruct (decide (g0 = g)) as [->|Hne].
    + rewrite lookup_insert_eq. eexists; split; [done|].
      replace G0 with G by congruence. apply gs_spawn.
    + rewrite lookup_insert_ne by done. exists G. split; [done | constructor].
  - destruct (goroutines w !! tid) as [t|] eqn:Ht.
    2: { unfold finish, bind, get in H. rewrite Ht in H. done. }
    destruct (wf_group w Hwf _ _ Ht) as [G0 Hg0].
    destruct (finish_cases tid r w t G0 Ht Hg0)
      as [(w1 & H1 & _ & Hgr & _) | [(_ & _ & H1) | (_ & _ & H1)]];
      rewrite H1 in H; [|done..].
    injection H as <-. rewrite Hgr.
    destruct (decide (go_group t = g)) as [Heq|Hne].
    + rewrite Heq, lookup_insert_eq. eexists; split; [done|].
      replace G0 with G by congruence. by apply gs_finish.
    + rewrite lookup_insert_ne by done. exists G. split; [done | constructor].
  - unfold Group_Exit in H. destruct (groups w !! g0) as [G0|] eqn:Hg0.
    2: { by rewrite Group_exit_None in H. }
    destruct (Group_exit_spec g0 e w G0 Hg0) as (w1 & H1 & Hgr & _).
    rewrite H1 in H. injection H as <-. rewrite Hgr.
    destruct (decide (g0 = g)) as [->|Hne].
    + rewrite lookup_insert_eq. eexists; split; [done|].
      replace G0 with G by congruence. apply gs_exit.
    + rewrite lookup_insert_ne by done. exists G. split; [done | constructor].
Qed.

Lemma exec_closed ev w w' ch :
  wf w -> exec ev w = Ok (tt, w') ->
  chans w !! ch = Some true -> chans w' !! ch = Some true.
Proof.
  intros Hwf H Hch.
  destruct ev as [|id dl|c|parent name onExit fields|g0 name onExit fn|tid r|g0 e];
    simpl in H.
  - unfold new_root in H. mred. simpl in H. by injection H as <-.
  - unfold cancel_root in H. destruct (ctxs w !! id) as [[e|]|]; [| |done];
      by injection H as <-.
  - unfold bind, check_Context, ret in H.
    destruct (Context_valid (ctxs w) c); [|done]. simpl in H.
    destruct (has_logger c) eqn:Hlog; [|done].
    destruct (NewGroup_spec c w) as (w1 & H1 & _ & Hc & _).
    rewrite H1 in H. injection H as <-.
    rewrite Hc. by apply insert_closed.
  - unfold bind at 1 in H.
    destruct (groups w !! parent) as [P|] eqn:HP.
    2: { by rewrite NewSubgroup_None in H. }
    destruct (NewSubgroup_spec parent name onExit fields w P HP (wf_no_closure w Hwf)
              (wf_logger w Hwf _ _ HP))
      as (w1 & child & H1 & _ & _ & Hc & _).
    rewrite H1 in H. unfold ret in H. injection H as <-.
    rewrite Hc. apply insert_closed.
    destruct (running P =? 0); [by apply insert_fresh_closed | done].
  - destruct (groups w !! g0) as [G0|] eqn:Hg0.
    2: { by rewrite Group_Spawn_None in H. }
    destruct (Group_Spawn_spec g0 name onExit (TaskFn fn) w G0 Hg0
                (wf_logger w Hwf _ _ Hg0))
      as (w1 & H1 & _ & Hc & _).
    rewrite H1 in H. injection H as <-. rewrite Hc.
    destruct (running G0 =? 0); [by apply insert_fresh_closed | done].
  - destruct (goroutines w !! tid) as [t|] eqn:Ht.
    2: { unfold finish, bind, get in H. rewrite Ht in H. done. }
    destruct (wf_group w Hwf _ _ Ht) as [G0 Hg0].
    destruct (finish_cases tid r w t G0 Ht Hg0)
      as [(w1 & H1 & _ & _ & Hc & _) | [(_ & _ & H1) | (_ & _ & H1)]];
      rewrite H1 in H; [|done..].
    injection H as <-. rewrite Hc.
    destruct (_ =? 0); [by apply insert_closed | done].
  - unfold Group_Exit in H. destruct (groups w !! g0) as [G0|] eqn:Hg0.
    2: { by rewrite Group_exit_None in H. }
    destruct (Group_exit_spec g0 e w G0 Hg0) as (w1 & H1 & _ & _ & Hc & _).
    rewrite H1 in H. injection H as <-. by rewrite Hc.
Qed.

Lemma run_closed evs w w' ch :
  wf w -> run evs w = Ok w' ->
  chans w !! ch = Some true -> chans w' !! ch = Some true.
Proof.
  revert w. induction evs as [|ev evs IH]; intros w Hwf H Hch.
  - simpl in H. by injection H as <-.
  - apply run_cons in H as (w1 & H1 & H2).
    eapply (IH w1); [by apply (exec_step ev w w1) | done |].
    by eapply exec_closed.
Qed.

(** ** Cancellation-class errors *)

(** One turn of the loop of [errors.Is]. *)
Lemma errors_Is_chain_unfold e t :
  errors_Is_chain e t =
  (comparable t && bool_decide (e = t))
  || match Unwrap e with
     | Some e' => errors_Is_chain e' t
     | None => false
     end.
Proof. destruct e as [| | | | |[]]; reflexivity. Qed.

Lemma errors_Is_chain_wraps e :
  errors_Is_chain e Canceled = true <-> wraps e Canceled.
Proof.
  induction e using error_mut
    with (P0 := fun v => match v with
                         | AnyError e' =>
                             errors_Is_chain e' Canceled = true <-> wraps e' Canceled
                         | _ => True
                         end); simpl; try done.
  - split; [constructor | done].
  - split; [done|]. intros H. inversion H as [|? ? ? Hu]. discriminate Hu.
  - split; [done|]. intros H. inversion H as [|? ? ? Hu]. discriminate Hu.
  - rewrite IHe. split.
    + intros H. by eapply wraps_inner.
    + intros H. inversion H as [|? ? ? Hu Hw]; subst. by injection Hu as <-.
  - rewrite IHe. split.
    + intros H. by eapply wraps_inner.
    + intros H. inversion H as [|? ? ? Hu Hw]; subst. by injection Hu as <-.
  - destruct Value as [s|z|e']; simpl.
    + split; [done|]. intros H. inversion H as [|? ? ? Hu]. discriminate Hu.
    + split; [done|]. intros H. inversion H as [|? ? ? Hu]. discriminate Hu.
    + rewrite IHe. split.
      * intros H. by eapply wraps_inner.
      * intros H. inversion H as [|? ? ? Hu Hw]; subst. by injection Hu as <-.
Qed.

Lemma errors_Is_wraps e :
  errors_Is e (Some Canceled) = true <-> exists e0, e = Some e0 /\ wraps e0 Canceled.
Proof.
  destruct e as [e0|]; simpl.
  - rewrite errors_Is_chain_wraps. split; [eauto|]. by intros (? & [= <-] & ?).
  - split; [done|]. by intros (? & ? & ?).
Qed.

Lemma reachable_world_after evs w :
  run evs World0 = Ok w -> reachable (world_after evs).
Proof. intros H. exists evs. unfold world_after. by rewrite H. Qed.

(** ** Exit while the group is closing (C1) *)

(** C1, as stated, fails: in a group that is closing with no result yet,
    [Exit] with an error that is not [context.Canceled] itself but wraps it
    leaves the result unset. *)
Lemma C1_counterexample :
  wrapped_Canceled <> Canceled /\
  groups (world_after history_closing) !! 0%nat = Some (Group0 0 0 true None) /\
  exists w',
    Group_Exit 0 (Some wrapped_Canceled) (world_after history_closing) = Ok (tt, w') /\
    groups w' !! 0%nat = Some (Group0 0 0 true None).
Proof.
  split; [done|]. split; [by vm_compute|].
  eexists. split; by vm_compute.
Qed.

(** C1, amended: while [closing] is true, [Exit] drops [err] exactly when
    [errors.Is(err, context.Canceled)] holds, that is when [err] is
    [context.Canceled] or wraps it; the struct is then unchanged.  Any other
    [err] is written to the result if the result is still unset. *)
Theorem C1_exit_drops_cancellation_chain g e w G :
  groups w !! g = Some G -> closing G = true ->
  (errors_Is e (Some Canceled) = true <->
   exists e0, e = Some e0 /\ wraps e0 Canceled) /\
  exists w' G',
    Group_Exit g e w = Ok (tt, w') /\ groups w' !! g = Some G' /\
    G' = (if errors_Is e (Some Canceled) then G
          else match err G with
               | Some _ => G
               | None => set_err e G
               end).
Proof.
  intros Hg Hc. split; [apply errors_Is_wraps|].
  destruct (Group_exit_spec g e w G Hg) as (w' & H1 & Hgr & _).
  exists w', (exit_Group e G). split; [done|].
  split; [rewrite Hgr; apply lookup_insert_eq|].
  unfold exit_Group. rewrite Hc. simpl.
  destruct (errors_Is e (Some Canceled)); [done|].
  case_bool_decide as He; simpl.
  - rewrite He. by apply set_closing_id.
  - destruct (err G); [by apply set_closing_id | done].
Qed.

Lemma C1_exit_drops_cancellation_chain_witness :
  groups (world_after history_closing) !! 0%nat = Some (Group0 0 0 true None) /\
  closing (Group0 0 0 true None) = true /\
  ((errors_Is (Some wrapped_Canceled) (Some Canceled) = true <->
    exists e0, Some wrapped_Canceled = Some e0 /\ wraps e0 Canceled) /\
   exists w' G',
     Group_Exit 0 (Some wrapped_Canceled) (world_after history_closing) = Ok (tt, w') /\
     groups w' !! 0%nat = Some G' /\
     G' = (if errors_Is (Some wrapped_Canceled) (Some Canceled)
           then Group0 0 0 true None
           else match err (Group0 0 0 true None) with
                | Some _ => Group0 0 0 true None
                | None => set_err (Some wrapped_Canceled) (Group0 0 0 true None)
                end)).
Proof.
  assert (H : groups (world_after history_closing) !! 0%nat
              = Some (Group0 0 0 true None)) by (vm_compute; reflexivity).
  split; [exact H|]. split; [reflexivity|].
  exact (C1_exit_drops_cancellation_chain 0 (Some wrapped_Canceled)
           (world_after history_closing) (Group0 0 0 true None) H eq_refl).
Defined.

(** ** Exit while the group is not closing (C10) *)

Lemma cancel_ctx_Done id p cs :
  Context_Done (cancel_ctx (WithCancel id p) cs) (WithCancel id p) = true.
Proof.
  unfold cancel_ctx. destruct (Context_Done cs (WithCancel id p)) eqn:Hd; [done|].
  unfold Context_Done. simpl. rewrite lookup_insert_eq. done.
Qed.

(** What [exit] does to a group that is not closing. *)
Lemma Group_exit_not_closing g e w G :
  wf w -> groups w !! g = Some G -> closing G = false ->
  exists w' G',
    Group_exit g e w = Ok (tt, w') /\ groups w' !! g = Some G' /\
    err G' = match err G with Some e1 => Some e1 | None => e end /\
    closing G' = true /\
    Context_Done (ctxs w') (ctx G') = true.
Proof.
  intros Hwf Hg Hc.
  destruct (Group_exit_spec g e w G Hg) as (w' & H1 & Hgr & Hcx & _).
  exists w', (exit_Group e G). split; [done|].
  split; [rewrite Hgr; apply lookup_insert_eq|].
  destruct (wf_cancel w Hwf g G Hg) as (Hcan & id & p & Hctx).
  rewrite exit_Group_ctx, Hcx, Hc, Hcan, Hctx.
  unfold exit_Group. rewrite Hc. simpl. repeat split.
  - case_bool_decide as He; simpl; [by rewrite He | by destruct (err G)].
  - apply cancel_ctx_Done.
Qed.

(** C10: while the group is not closing, [Exit] handles every error alike,
    one that satisfies [errors.Is(err, context.Canceled)] included: the error
    becomes the result if the result is unset, [closing] is set and the
    context of the group is cancelled. *)
Theorem C10_cancellation_recorded_before_closing g e w G :
  reachable w -> groups w !! g = Some G -> closing G = false ->
  errors_Is e (Some Canceled) = true ->
  exists w' G',
    Group_Exit g e w = Ok (tt, w') /\ groups w' !! g = Some G' /\
    err G' = match err G with Some e1 => Some e1 | None => e end /\
    closing G' = true /\
    Context_Done (ctxs w') (ctx G') = true.
Proof.
  intros Hr Hg Hc _. apply Group_exit_not_closing; auto using reachable_wf.
Qed.

Lemma C10_cancellation_recorded_before_closing_witness :
  exists w' G',
    Group_Exit 0 (Some wrapped_Canceled) (world_after history_fresh) = Ok (tt, w') /\
    groups w' !! 0%nat = Some G' /\
    err G' = match err (Group0 0 0 false None) with
             | Some e1 => Some e1
             | None => Some wrapped_Canceled
             end /\
    closing G' = true /\
    Context_Done (ctxs w') (ctx G') = true.
Proof.
  apply (C10_cancellation_recorded_before_closing 0 (Some wrapped_Canceled)
           (world_after history_fresh) (Group0 0 0 false None)).
  - apply (reachable_world_after history_fresh (world_after history_fresh)).
    vm_compute. reflexivity.
  - vm_compute. reflexivity.
  - reflexivity.
  - vm_compute. reflexivity.
Defined.

(** ** Complete (C7) *)

(** C7: [Complete(ctx)] cannot proceed while neither [ctx] nor the context
    of the group is done, nor while a task of the group is running; once it
    can, it returns the result of the group if that is an error and
    [ctx.Err()] otherwise. *)
Theorem C7_Complete_result n w g G c :
  reachable_in n w -> Z.of_nat n <= max_int ->
  groups w !! g = Some G ->
  Group_Complete g c w =
    if Context_Done (ctxs w) c || Context_Done (ctxs w) (ctx G) then
      if running G =? 0 then
        Ok (match err G with
            | Some e => Some e
            | None => Context_Err (ctxs w) c
            end, w)
      else Blocked
    else Blocked.
Proof.
  intros Hr Hn Hg.
  destruct (reachable_in_counted n w Hr Hn) as [Hc _].
  destruct (Hc g G Hg) as [Hrun Hopen].
  destruct (wf_done w (reachable_wf w (reachable_in_reachable n w Hr)) g G Hg)
    as [b Hb].
  unfold Group_Complete, select_Done.
  rewrite (bind_Ok _ _ _ _ _ (load_Some _ _ _ Hg)).
  unfold bind at 1.
  destruct (Context_Done (ctxs w) c || Context_Done (ctxs w) (ctx G)); [|done].
  unfold Group_Wait, Group_Done, recv. mred. rewrite Hg, Hb.
  destruct (running G =? 0) eqn:Hz.
  - destruct b.
    + rewrite Hg. by destruct (err G).
    + assert (0 < running G) by (by apply Hopen). lia.
  - destruct b; [|done]. assert (0 < running G) by lia.
    apply Hopen in H. congruence.
Qed.

Lemma C7_Complete_result_witness :
  Group_Complete 0 (Root 0) (world_after history_closing) =
    if Context_Done (ctxs (world_after history_closing)) (Root 0)
       || Context_Done (ctxs (world_after history_closing))
            (ctx (Group0 0 0 true None))
    then
      if running (Group0 0 0 true None) =? 0 then
        Ok (match err (Group0 0 0 true None) with
            | Some e => Some e
            | None => Context_Err (ctxs (world_after history_closing)) (Root 0)
            end, world_after history_closing)
      else Blocked
    else Blocked.
Proof.
  apply (C7_Complete_result 3 (world_after history_closing) 0
           (Group0 0 0 true None) (Root 0)).
  - exists history_closing. split; [reflexivity|]. vm_compute. reflexivity.
  - vm_compute. discriminate.
  - vm_compute. reflexivity.
Defined.

(** ** A task that ends, in a heap of the program *)

Lemma finish_reachable n w tid t G r :
  reachable_in n w -> Z.of_nat n <= max_int ->
  goroutines w !! tid = Some t -> groups w !! go_group t = Some G ->
  let G' := runTask_Group (go_name t) (go_onExit t) r (heap_top w) G in
  0 < running G /\ chans w !! done G = Some false /\
  running G' = running G - 1 /\
  exists w',
    finish tid r w = Ok (tt, w') /\
    groups w' = <[go_group t := G']> (groups w) /\
    chans w' = (if running G' =? 0 then <[done G := true]> (chans w) else chans w) /\
    ctxs w' = (match reported (go_name t) (go_onExit t) r (heap_top w) G with
               | Some _ => if closing G then ctxs w
                           else cancel_ctx (cancel G) (ctxs w)
               | None => ctxs w
               end) /\
    goroutines w' = delete tid (goroutines w) /\ gchans w' = gchans w.
Proof.
  intros Hr Hn Ht Hg G'.
  destruct (reachable_in_counted n w Hr Hn) as [Hc Hsz].
  destruct (Hc _ G Hg) as [Hrun Hopen].
  pose proof (tasks_of_delete (go_group t) _ _ _ Ht) as Hdel.
  rewrite decide_True in Hdel by done.
  pose proof (tasks_of_le (go_group t) (goroutines w)) as Hle.
  assert (Hpos : 0 < running G) by lia.
  assert (HG' : running G' = running G - 1).
  { unfold G'. rewrite runTask_Group_running. unfold max_int in Hn.
    apply int_wrap_small. lia. }
  split; [done|]. split; [by apply Hopen|]. split; [done|].
  apply finish_spec; [done | done |]. intros _. by apply Hopen.
Qed.

(** ** Panics (C8) *)

Lemma render_Stack_contains origin callers :
  contains (render_Stack (origin :: callers)) origin.
Proof.
  exists ("goroutine [running]:" +:+ newline),
         ("(...)" +:+ foldr (fun f acc => newline +:+ f +:+ "(...)" +:+ acc) "" callers).
  reflexivity.
Qed.

(** C8, as stated, fails: the result of the group is not always the
    [PanicError] of a task that panicked.  After another task has failed
    with [boom], a task that panics leaves [boom] as the result, and [Wait]
    returns [boom]; on a group that is closing with no result, a task that
    panics with [context.Canceled] as its payload leaves the result unset,
    and [Wait] returns nil. *)
Lemma C8_counterexample :
  (groups (world_after history_first_write) !! 0%nat
   = Some (Group0 1 1 true (Some boom)) /\
   exists t w',
     goroutines (world_after history_first_write) !! 1%nat = Some t /\
     go_group t = 0%nat /\
     finish 1 (Panics (AnyString "oops") ["panicWith"; "func1"; "runTask"])
       (world_after history_first_write) = Ok (tt, w') /\
     groups w' !! 0%nat = Some (Group0 0 1 true (Some boom)) /\
     Group_Wait 0 w' = Ok (Some boom, w') /\
     forall v stack, boom <> PanicError v stack) /\
  (groups (world_after history_doomed_closing) !! 0%nat
   = Some (Group0 1 1 true None) /\
   exists w',
     goroutines (world_after history_doomed_closing) !! 0%nat = Some doomed /\
     finish 0 (Panics (AnyError Canceled) ["panicWith"; "func1"; "runTask"])
       (world_after history_doomed_closing) = Ok (tt, w') /\
     groups w' !! 0%nat = Some (Group0 0 1 true None) /\
     Group_Wait 0 w' = Ok (None, w')).
Proof.
  split.
  - split; [vm_compute; reflexivity|]. eexists _, _.
    split; [vm_compute; reflexivity|]. split; [reflexivity|].
    split; [vm_compute; reflexivity|]. split; [vm_compute; reflexivity|].
    split; [vm_compute; reflexivity|]. discriminate.
  - split; [vm_compute; reflexivity|]. eexists.
    split; [vm_compute; reflexivity|].
    split; [vm_compute; reflexivity|]. split; [vm_compute; reflexivity|].
    vm_compute. reflexivity.
Qed.

(** C8, amended: a task that panics with the payload [v] in the function
    [origin] yields a [PanicError] whose [Unwrap] gives the payload if that
    is an error and nothing otherwise, whose message is the text "panic: "
    followed by the message of the error or the string form of the payload,
    and whose trace is the one rendered at the place of the panic and names
    [origin].  This error is what the task reports to its group, always: it
    becomes the result if the result is unset, unless the group is closing
    and the payload is an error of the cancellation class; a result that is
    set stays. *)
Theorem C8_panic_becomes_PanicError n w tid t G v origin callers :
  reachable_in n w -> Z.of_nat n <= max_int ->
  goroutines w !! tid = Some t -> groups w !! go_group t = Some G ->
  exists pe w' G',
    runTask (Panics v (origin :: callers)) = Some pe /\
    reported (go_name t) (go_onExit t) (Panics v (origin :: callers))
      (heap_top w) G = Some (Some pe) /\
    pe = PanicError v (render_Stack (origin :: callers)) /\
    contains (render_Stack (origin :: callers)) origin /\
    Unwrap pe = match v with AnyError E => Some E | _ => None end /\
    Error pe = "panic: " +:+ match v with
                             | AnyError E => Error E
                             | AnyString s => s
                             | AnyInt z => Z_to_string z
                             end /\
    finish tid (Panics v (origin :: callers)) w = Ok (tt, w') /\
    groups w' !! go_group t = Some G' /\
    err G' = if closing G && errors_Is (Some pe) (Some Canceled) then err G
             else match err G with
                  | Some e1 => Some e1
                  | None => Some pe
                  end.
Proof.
  intros Hr Hn Ht Hg.
  destruct (finish_reachable n w tid t G (Panics v (origin :: callers)) Hr Hn Ht Hg)
    as (_ & _ & _ & w' & H1 & Hgr & _).
  eexists _, w', _. split; [reflexivity|]. split; [reflexivity|].
  split; [reflexivity|]. split; [apply render_Stack_contains|].
  split; [by destruct v|]. split; [by destruct v|].
  split; [done|]. split; [rewrite Hgr; apply lookup_insert_eq|].
  unfold runTask_Group, reported, exit_Group. simpl.
  destruct (closing G && _); [done|]. simpl.
  case_bool_decide as He; simpl; [by rewrite He | by destruct (err G)].
Qed.

Lemma C8_panic_becomes_PanicError_witness :
  exists pe w' G',
    runTask (Panics (AnyString "oops") ["panicWith"; "func1"; "runTask"]) = Some pe /\
    reported (go_name doomed) (go_onExit doomed)
      (Panics (AnyString "oops") ["panicWith"; "func1"; "runTask"])
      (heap_top (world_after history_doomed)) (Group0 1 1 false None)
    = Some (Some pe) /\
    pe = PanicError (AnyString "oops")
           (render_Stack ["panicWith"; "func1"; "runTask"]) /\
    contains (render_Stack ["panicWith"; "func1"; "runTask"]) "panicWith" /\
    Unwrap pe = None /\
    Error pe = "panic: " +:+ "oops" /\
    finish 0 (Panics (AnyString "oops") ["panicWith"; "func1"; "runTask"])
      (world_after history_doomed) = Ok (tt, w') /\
    groups w' !! go_group doomed = Some G' /\
    err G' = Some pe.
Proof.
  apply (C8_panic_becomes_PanicError 3 (world_after history_doomed) 0 doomed
           (Group0 1 1 false None) (AnyString "oops") "panicWith"
           ["func1"; "runTask"]).
  - exists history_doomed. split; [reflexivity|]. vm_compute. reflexivity.
  - vm_compute. discriminate.
  - vm_compute. reflexivity.
  - vm_compute. reflexivity.
Defined.

Example TestPanicError_message :
  Error (PanicError (AnyError (fundamental 3 "oops")) "") = "panic: oops" /\
  Unwrap (PanicError (AnyError (fundamental 3 "oops")) "") = Some (fundamental 3 "oops").
Proof. split; reflexivity. Qed.

(** ** The policy Fail (C6) *)

(** C6, as stated, fails: a task with policy [Fail] that returns nil while
    the group is closing reports nothing; no error is made and the result
    stays unset. *)
Lemma C6_counterexample :
  goroutines (world_after history_doomed_closing) !! 0%nat = Some doomed /\
  go_onExit doomed = Fail /\
  groups (world_after history_doomed_closing) !! 0%nat = Some (Group0 1 1 true None) /\
  exists w',
    finish 0 (Returns None) (world_after history_doomed_closing) = Ok (tt, w') /\
    groups w' !! 0%nat = Some (Group0 0 1 true None) /\
    heap_top w' = heap_top (world_after history_doomed_closing).
Proof.
  split; [by vm_compute|]. split; [done|]. split; [by vm_compute|].
  eexists. split; [by vm_compute|]. split; by vm_compute.
Qed.

(** C6, amended: a task with policy [Fail] that returns nil always ends.
    While the group is not closing, the group shuts down ([closing] is set,
    its context is cancelled) with a new error whose message is
    "task <name> terminated unexpectedly", which becomes the result if the
    result is unset.  While the group is closing, the task reports nothing:
    the count goes down by one and nothing else of the group or of the
    contexts changes. *)
Theorem C6_Fail_returns_nil n w tid t G :
  reachable_in n w -> Z.of_nat n <= max_int ->
  goroutines w !! tid = Some t -> go_onExit t = Fail ->
  groups w !! go_group t = Some G ->
  exists w' G',
    finish tid (Returns None) w = Ok (tt, w') /\
    groups w' !! go_group t = Some G' /\
    if closing G then
      reported (go_name t) (go_onExit t) (Returns None) (heap_top w) G = None /\
      G' = set_running (running G - 1) G /\
      ctxs w' = ctxs w
    else
      exists e,
        Error e = "task " +:+ go_name t +:+ " terminated unexpectedly" /\
        reported (go_name t) (go_onExit t) (Returns None) (heap_top w) G
        = Some (Some e) /\
        err G' = match err G with Some e1 => Some e1 | None => Some e end /\
        closing G' = true /\
        Context_Done (ctxs w') (ctx G') = true.
Proof.
  intros Hr Hn Ht Hp Hg.
  destruct (finish_reachable n w tid t G (Returns None) Hr Hn Ht Hg)
    as (_ & _ & Hrun & w' & H1 & Hgr & _ & Hcx & _).
  destruct (wf_cancel w (reachable_wf w (reachable_in_reachable n w Hr)) _ G Hg)
    as (Hcan & id & p & Hctx).
  eexists w', _. split; [done|]. split; [rewrite Hgr; apply lookup_insert_eq|].
  destruct (closing G) eqn:Hc.
  - assert (Hrep : reported (go_name t) (go_onExit t) (Returns None) (heap_top w) G
                   = None).
    { unfold reported. simpl. by rewrite Hc. }
    rewrite Hrep in Hcx. split; [done|]. split; [|done].
    unfold runTask_Group in *. rewrite Hrep in *. simpl in Hrun.
    by rewrite Hrun.
  - assert (Hrep : reported (go_name t) (go_onExit t) (Returns None) (heap_top w) G
                   = Some (Some (fundamental (heap_top w)
                       ("task " +:+ go_name t +:+ " terminated unexpectedly")))).
    { unfold reported. simpl. by rewrite Hc, Hp. }
    rewrite Hrep in Hcx.
    eexists. split; [|split; [exact Hrep|]]; [reflexivity|].
    rewrite runTask_Group_ctx. unfold runTask_Group. rewrite Hrep.
    unfold exit_Group. rewrite Hc. simpl. repeat split.
    + case_bool_decide as He; simpl; [by rewrite He | by destruct (err G)].
    + rewrite Hcx, Hcan, Hctx. apply cancel_ctx_Done.
Qed.

Lemma C6_Fail_returns_nil_witness :
  exists w' G',
    finish 0 (Returns None) (world_after history_doomed) = Ok (tt, w') /\
    groups w' !! go_group doomed = Some G' /\
    exists e,
      Error e = "task " +:+ go_name doomed +:+ " terminated unexpectedly" /\
      reported (go_name doomed) (go_onExit doomed) (Returns None)
        (heap_top (world_after history_doomed)) (Group0 1 1 false None)
      = Some (Some e) /\
      err G' = match err (Group0 1 1 false None) with
               | Some e1 => Some e1
               | None => Some e
               end /\
      closing G' = true /\
      Context_Done (ctxs w') (ctx G') = true.
Proof.
  apply (C6_Fail_returns_nil 3 (world_after history_doomed)
           0 doomed (Group0 1 1 false None)).
  - exists history_doomed. split; [reflexivity|]. vm_compute. reflexivity.
  - vm_compute. discriminate.
  - vm_compute. reflexivity.
  - reflexivity.
  - vm_compute. reflexivity.
Defined.

(** ** The result slot along a history *)

Lemma exit_Group_err_kept e G e0 :
  err G = Some e0 -> err (exit_Group e G) = Some e0.
Proof.
  intros H. unfold exit_Group. destruct (closing G && _); [done|].
  simpl. rewrite bool_decide_eq_false_2; [done | by rewrite H].
Qed.

Lemma exit_Group_closing_kept e G :
  closing G = true -> closing (exit_Group e G) = true.
Proof. intros H. unfold exit_Group. by destruct (closing G && _). Qed.

Lemma exit_Group_quiet e G :
  closing G = true ->
  e = None \/ errors_Is e (Some Canceled) = true ->
  err (exit_Group e G) = err G.
Proof.
  intros Hc Hq. unfold exit_Group. rewrite Hc. simpl.
  destruct Hq as [-> | ->]; [|done]. simpl.
  case_bool_decide as He; simpl; [by rewrite He | done].
Qed.

Lemma group_step_err_kept w g G ev G' e0 :
  group_step w g G ev G' -> err G = Some e0 -> err G' = Some e0.
Proof.
  intros Hs He. destruct Hs; simpl; try done.
  - unfold Spawn_Group. simpl. by destruct (running G =? 0).
  - unfold runTask_Group. simpl. destruct (reported _ _ _ _ _); [|done].
    by apply exit_Group_err_kept.
  - by apply exit_Group_err_kept.
Qed.

Lemma group_step_closing_kept w g G ev G' :
  group_step w g G ev G' -> closing G = true -> closing G' = true.
Proof.
  intros Hs Hc. destruct Hs; simpl; try done.
  - unfold Spawn_Group. simpl. by destruct (running G =? 0).
  - unfold runTask_Group. simpl. destruct (reported _ _ _ _ _); [|done].
    by apply exit_Group_closing_kept.
  - by apply exit_Group_closing_kept.
Qed.

Lemma group_step_quiet w g G ev G' :
  group_step w g G ev G' -> closing G = true -> quiet ev -> err G' = err G.
Proof.
  intros Hs Hc Hq. destruct Hs; simpl; try done.
  - unfold Spawn_Group. simpl. by destruct (running G =? 0).
  - unfold runTask_Group, reported. simpl in *. rewrite Hc.
    destruct (runTask r) as [e|] eqn:Hr; [|done].
    apply exit_Group_quiet; [done|]. destruct Hq as [Hq|Hq]; [done | by right].
  - by apply exit_Group_quiet.
Qed.

Lemma run_err_kept evs w w' g G e0 :
  wf w -> run evs w = Ok w' -> groups w !! g = Some G -> err G = Some e0 ->
  exists G', groups w' !! g = Some G' /\ err G' = Some e0.
Proof.
  revert w G. induction evs as [|ev evs IH]; intros w G Hwf H Hg He.
  - simpl in H. injection H as <-. eauto.
  - apply run_cons in H as (w1 & H1 & H2).
    destruct (exec_group ev w w1 g G Hwf H1 Hg) as (G1 & Hg1 & Hs).
    eapply (IH w1 G1); eauto using group_step_err_kept.
    by apply (exec_step ev w w1).
Qed.

Lemma run_quiet evs w w' g G :
  wf w -> run evs w = Ok w' -> groups w !! g = Some G -> closing G = true ->
  Forall quiet evs ->
  exists G', groups w' !! g = Some G' /\ err G' = err G /\ closing G' = true.
Proof.
  revert w G. induction evs as [|ev evs IH]; intros w G Hwf H Hg Hc Hq.
  - simpl in H. injection H as <-. eauto.
  - apply run_cons in H as (w1 & H1 & H2).
    apply Forall_cons in Hq as [Hq1 Hq2].
    destruct (exec_group ev w w1 g G Hwf H1 Hg) as (G1 & Hg1 & Hs).
    destruct (IH w1 G1) as (G' & Hg' & He' & Hc'); eauto using group_step_closing_kept.
    { by apply (exec_step ev w w1). }
    exists G'. split; [done|]. split; [|done].
    rewrite He'. by eapply group_step_quiet.
Qed.

Lemma Group_Wait_closed g w G :
  groups w !! g = Some G -> chans w !! done G = Some true ->
  Group_Wait g w = Ok (err G, w).
Proof.
  intros Hg Hch. unfold Group_Wait, Group_Done, recv. mred.
  by rewrite Hg, Hch, Hg.
Qed.

(** ** The policy Exit (C3) *)

(** C3, as stated, fails: after a task with policy [Exit] has returned nil,
    with no error recorded before, a task that returns an error makes that
    error the result, and [Wait] returns it. *)
Lemma C3_counterexample :
  goroutines (world_after history_two_tasks) !! 0%nat = Some task_a /\
  go_onExit task_a = Exit /\
  groups (world_after history_two_tasks) !! 0%nat = Some (Group0 2 1 false None) /\
  groups (world_after history_exit_nil) !! 0%nat = Some (Group0 1 1 true None) /\
  Group_Wait 0 (world_after history_exit_nil_boom)
  = Ok (Some boom, world_after history_exit_nil_boom).
Proof.
  split; [vm_compute; reflexivity|]. split; [reflexivity|].
  split; [vm_compute; reflexivity|]. split; vm_compute; reflexivity.
Qed.

(** C3, amended: when a task with policy [Exit] returns nil while the group
    is not closing, the group shuts down ([closing] is set, its context is
    cancelled) and the result is left as it was.  As long as the events that
    follow report no error, or only errors of the cancellation class, the
    result stays as it was before that task ended, and that is what [Wait]
    returns once [done] is closed. *)
Theorem C3_Exit_nil_shuts_down_with_nil n w tid t G :
  reachable_in n w -> Z.of_nat n <= max_int ->
  goroutines w !! tid = Some t -> go_onExit t = Exit ->
  groups w !! go_group t = Some G -> closing G = false ->
  exists w' G',
    reported (go_name t) (go_onExit t) (Returns None) (heap_top w) G = Some None /\
    finish tid (Returns None) w = Ok (tt, w') /\
    groups w' !! go_group t = Some G' /\
    err G' = err G /\ closing G' = true /\
    Context_Done (ctxs w') (ctx G') = true /\
    forall evs w'',
      Forall quiet evs -> run evs w' = Ok w'' ->
      exists G'',
        groups w'' !! go_group t = Some G'' /\ err G'' = err G /\
        (chans w'' !! done G'' = Some true ->
         Group_Wait (go_group t) w'' = Ok (err G, w'')).
Proof.
  intros Hr Hn Ht Hp Hg Hc.
  destruct (finish_reachable n w tid t G (Returns None) Hr Hn Ht Hg)
    as (_ & _ & _ & w' & H1 & Hgr & _ & Hcx & _).
  pose proof (reachable_wf w (reachable_in_reachable n w Hr)) as Hwf.
  destruct (wf_cancel w Hwf _ G Hg) as (Hcan & id & p & Hctx).
  assert (Hrep : reported (go_name t) (go_onExit t) (Returns None) (heap_top w) G
                 = Some None).
  { unfold reported. simpl. by rewrite Hc, Hp. }
  rewrite Hrep, Hc in Hcx.
  set (G' := runTask_Group (go_name t) (go_onExit t) (Returns None) (heap_top w) G) in *.
  assert (Hg' : groups w' !! go_group t = Some G').
  { rewrite Hgr. apply lookup_insert_eq. }
  assert (He' : err G' = err G).
  { unfold G', runTask_Group. rewrite Hrep. unfold exit_Group. rewrite Hc. simpl.
    case_bool_decide as He; simpl; [by rewrite He | done]. }
  assert (Hc' : closing G' = true).
  { unfold G', runTask_Group. rewrite Hrep. unfold exit_Group. by rewrite Hc. }
  exists w', G'. repeat split; try done.
  - unfold G'. rewrite runTask_Group_ctx, Hcx, Hcan, Hctx. apply cancel_ctx_Done.
  - intros evs w'' Hq Hrun.
    assert (Hr' : reachable_in (S n) w').
    { destruct Hr as (evs0 & Hlen & Hrun0).
      exists (evs0 ++ [EvFinish tid (Returns None)]). split.
      - rewrite length_app. simpl. lia.
      - eapply run_app; [done|]. simpl. unfold exec. by rewrite H1. }
    pose proof (reachable_wf w' (reachable_in_reachable _ w' Hr')) as Hwf'.
    destruct (run_quiet evs w' w'' _ G' Hwf' Hrun Hg' Hc' Hq) as (G'' & Hg'' & He'' & _).
    exists G''. split; [done|]. split; [congruence|].
    intros Hz. rewrite <- He', <- He''. by apply Group_Wait_closed.
Qed.

Lemma C3_Exit_nil_shuts_down_with_nil_witness :
  exists w' G',
    reported (go_name task_a) (go_onExit task_a) (Returns None)
      (heap_top (world_after history_two_tasks)) (Group0 2 1 false None)
    = Some None /\
    finish 0 (Returns None) (world_after history_two_tasks) = Ok (tt, w') /\
    groups w' !! go_group task_a = Some G' /\
    err G' = err (Group0 2 1 false None) /\ closing G' = true /\
    Context_Done (ctxs w') (ctx G') = true /\
    forall evs w'',
      Forall quiet evs -> run evs w' = Ok w'' ->
      exists G'',
        groups w'' !! go_group task_a = Some G'' /\
        err G'' = err (Group0 2 1 false None) /\
        (chans w'' !! done G'' = Some true ->
         Group_Wait (go_group task_a) w''
         = Ok (err (Group0 2 1 false None), w'')).
Proof.
  apply (C3_Exit_nil_shuts_down_with_nil 4 (world_after history_two_tasks)
           0 task_a (Group0 2 1 false None)).
  - exists history_two_tasks. split; [reflexivity|]. vm_compute. reflexivity.
  - vm_compute. discriminate.
  - vm_compute. reflexivity.
  - reflexivity.
  - vm_compute. reflexivity.
  - reflexivity.
Defined.

Lemma run_group_kept evs w w' g G :
  wf w -> run evs w = Ok w' -> groups w !! g = Some G ->
  exists G', groups w' !! g = Some G'.
Proof.
  revert w G. induction evs as [|ev evs IH]; intros w G Hwf H Hg.
  - simpl in H. injection H as <-. eauto.
  - apply run_cons in H as (w1 & H1 & H2).
    destruct (exec_group ev w w1 g G Hwf H1 Hg) as (G1 & Hg1 & _).
    eapply (IH w1 G1); eauto. by apply (exec_step ev w w1).
Qed.

(** ** First write wins (C4) *)

Lemma exit_Group_first_write e G :
  err G = None ->
  err (exit_Group (Some e) G) =
  if closing G && errors_Is (Some e) (Some Canceled) then None else Some e.
Proof.
  intros He. unfold exit_Group.
  destruct (closing G && errors_Is (Some e) (Some Canceled)); [done|].
  simpl. by rewrite bool_decide_eq_true_2.
Qed.

(** What an event that reports [e] to a group leaves in its result. *)
Lemma exec_reports w g G ev e w1 :
  wf w -> groups w !! g = Some G -> reports w g G ev e ->
  exec ev w = Ok (tt, w1) ->
  exists G1, groups w1 !! g = Some G1 /\ err G1 = err (exit_Group (Some e) G).
Proof.
  intros Hwf Hg [->|(tid & r & t & -> & Ht & <- & Hrep)] H; simpl in H.
  - unfold Group_Exit in H.
    destruct (Group_exit_spec g (Some e) w G Hg) as (w' & H1 & Hgr & _).
    rewrite H1 in H. injection H as <-.
    exists (exit_Group (Some e) G). split; [|done].
    rewrite Hgr. apply lookup_insert_eq.
  - destruct (finish_cases tid r w t G Ht Hg)
      as [(w' & H1 & _ & Hgr & _) | [(_ & _ & H1) | (_ & _ & H1)]];
      rewrite H1 in H; [|done..].
    injection H as <-. eexists. split; [rewrite Hgr; apply lookup_insert_eq|].
    unfold runTask_Group. by rewrite Hrep.
Qed.

(** What a written result says of the event that wrote it. *)
Lemma group_step_first_write w g G ev G1 e :
  group_step w g G ev G1 -> err G = None -> err G1 = Some e ->
  reports w g G ev e /\
  closing G && errors_Is (Some e) (Some Canceled) = false.
Proof.
  intros Hs He He1. destruct Hs as [ev|ev ch|tid r t Ht Hgt|e'].
  - congruence.
  - unfold Spawn_Group in He1. simpl in He1.
    destruct (running G =? 0); simpl in He1; congruence.
  - unfold runTask_Group in He1. simpl in He1.
    destruct (reported _ _ _ _ _) as [[e'|]|] eqn:Hrep.
    + rewrite exit_Group_first_write in He1 by done.
      destruct (closing G && errors_Is (Some e') (Some Canceled)) eqn:Hd;
        [done|]. injection He1 as <-.
      split; [|done]. right. by exists tid, r, t.
    + unfold exit_Group in He1. destruct (closing G && _); [congruence|].
      simpl in He1. rewrite bool_decide_eq_true_2 in He1 by done.
      simpl in He1. congruence.
    + congruence.
  - destruct e' as [e'|].
    + rewrite exit_Group_first_write in He1 by done.
      destruct (closing G && errors_Is (Some e') (Some Canceled)) eqn:Hd;
        [done|]. injection He1 as <-.
      split; [by left | done].
    + unfold exit_Group in He1. destruct (closing G && _); [congruence|].
      simpl in He1. rewrite bool_decide_eq_true_2 in He1 by done.
      simpl in He1. congruence.
Qed.

(** C4: an event leaves an error in the unset result of a group exactly
    when it reports that error to the group and the error is not dropped
    (the group closing and the error of the cancellation class): the error
    written is the very error reported.  After any further history, with
    whatever other errors it reports, the result is still that error, and
    [Wait] returns it.  A call of [Exit] with an error always succeeds. *)
Theorem C4_first_write_wins w g G ev w1 evs w2 :
  reachable w -> groups w !! g = Some G -> err G = None ->
  exec ev w = Ok (tt, w1) -> run evs w1 = Ok w2 ->
  exists G1 G2,
    groups w1 !! g = Some G1 /\ groups w2 !! g = Some G2 /\
    (forall e,
       err G1 = Some e <->
       reports w g G ev e /\
       closing G && errors_Is (Some e) (Some Canceled) = false) /\
    (forall e,
       err G1 = Some e ->
       err G2 = Some e /\
       (chans w2 !! done G2 = Some true -> Group_Wait g w2 = Ok (Some e, w2))) /\
    (forall e, exists w1', exec (EvExit g (Some e)) w = Ok (tt, w1')).
Proof.
  intros Hr Hg He H1 H2. pose proof (reachable_wf w Hr) as Hwf.
  destruct (exec_group ev w w1 g G Hwf H1 Hg) as (G1 & Hg1 & Hs).
  pose proof (exec_step ev w w1 Hwf H1) as (Hwf1 & _).
  destruct (run_group_kept evs w1 w2 g G1 Hwf1 H2 Hg1) as [G2 Hg2].
  exists G1, G2. split; [done|]. split; [done|]. split; [|split].
  - intros e. split.
    + intros He1. by eapply group_step_first_write.
    + intros [Hrep Hnd].
      destruct (exec_reports w g G ev e w1 Hwf Hg Hrep H1) as (G1' & Hg1' & He1').
      replace G1 with G1' by congruence.
      by rewrite He1', exit_Group_first_write, Hnd.
  - intros e He1.
    destruct (run_err_kept evs w1 w2 g G1 e Hwf1 H2 Hg1 He1) as (G2' & Hg2' & He2).
    replace G2 with G2' by congruence. split; [done|].
    intros Hch. rewrite <- He2. by apply Group_Wait_closed.
  - intros e. simpl. unfold Group_Exit.
    destruct (Group_exit_spec g (Some e) w G Hg) as (w' & -> & _). eauto.
Qed.

Lemma C4_first_write_wins_witness :
  exists G1 G2,
    groups (world_after history_first_write) !! 0%nat = Some G1 /\
    groups (world_after history_all_failures) !! 0%nat = Some G2 /\
    (forall e,
       err G1 = Some e <->
       reports (world_after history_two_workers) 0 (Group0 2 1 false None)
         (EvFinish 0 (Returns (Some boom))) e /\
       closing (Group0 2 1 false None) && errors_Is (Some e) (Some Canceled)
       = false) /\
    (forall e,
       err G1 = Some e ->
       err G2 = Some e /\
       (chans (world_after history_all_failures) !! done G2 = Some true ->
        Group_Wait 0 (world_after history_all_failures)
        = Ok (Some e, world_after history_all_failures))) /\
    (forall e, exists w1',
        exec (EvExit 0 (Some e)) (world_after history_two_workers) = Ok (tt, w1')).
Proof.
  apply (C4_first_write_wins (world_after history_two_workers) 0
           (Group0 2 1 false None) (EvFinish 0 (Returns (Some boom)))
           (world_after history_first_write)
           history_later_failures
           (world_after history_all_failures)).
  - apply (reachable_world_after history_two_workers (world_after history_two_workers)).
    vm_compute. reflexivity.
  - vm_compute. reflexivity.
  - reflexivity.
  - vm_compute. reflexivity.
  - vm_compute. reflexivity.
Defined.

Example C4_two_failures :
  Group_Wait 0 (world_after history_all_failures)
  = Ok (Some boom, world_after history_all_failures).
Proof. vm_compute. reflexivity. Qed.

(** ** The completion gate (C5) *)

(** The gate of a group in a heap of the program. *)
Lemma gate_state n w g G :
  reachable_in n w -> Z.of_nat n <= max_int ->
  groups w !! g = Some G ->
  0 <= running G /\ chans w !! done G = Some (running G =? 0).
Proof.
  intros Hr Hn Hg.
  destruct (reachable_in_counted n w Hr Hn) as [Hc _].
  pose proof (reachable_wf w (reachable_in_reachable n w Hr)) as Hwf.
  destruct (Hc g G Hg) as [Hrun Hopen].
  destruct (wf_done w Hwf g G Hg) as [b Hb].
  split; [lia|]. rewrite Hb. f_equal. destruct b.
  - destruct (running G =? 0) eqn:Hz; [done|].
    assert (0 < running G) as Hp by lia. apply Hopen in Hp. congruence.
  - assert (0 < running G) as Hp by (by apply Hopen).
    symmetry. apply Z.eqb_neq. lia.
Qed.

(** What [Spawn] does to the gate, given its state. *)
Lemma Spawn_gate n w g G name onExit task :
  reachable_in n w -> Z.of_nat n < max_int ->
  groups w !! g = Some G ->
  exists w' G',
    Group_Spawn g name onExit task w = Ok (tt, w') /\
    groups w' !! g = Some G' /\
    running G' = running G + 1 /\
    chans w' !! done G' = Some false /\
    (if running G =? 0
     then chans w !! done G' = None /\ chans w' !! done G = Some true
     else done G' = done G) /\
    (forall ch, ch <> done G' -> chans w' !! ch = chans w !! ch).
Proof.
  intros Hr Hn Hg.
  assert (Hn' : Z.of_nat n <= max_int) by lia.
  destruct (gate_state n w g G Hr Hn' Hg) as [Hpos Hgate].
  destruct (reachable_in_counted n w Hr Hn') as [Hc Hsz].
  destruct (Hc g G Hg) as [Hrun _].
  pose proof (tasks_of_le g (goroutines w)) as Hle.
  destruct (Group_Spawn_spec g name onExit task w G Hg
              (wf_logger w (reachable_wf w (reachable_in_reachable n w Hr)) _ _ Hg))
    as (w' & H1 & Hgr & Hch & _).
  exists w', (Spawn_Group (fresh (dom (chans w))) G).
  split; [done|]. split; [rewrite Hgr; apply lookup_insert_eq|].
  unfold Spawn_Group. simpl. unfold max_int in Hn.
  split; [apply int_wrap_small; lia|].
  rewrite Hch. destruct (running G =? 0) eqn:Hz; simpl.
  - split; [apply lookup_insert_eq|].
    split; [split; [apply fresh_lookup|]|].
    + rewrite lookup_insert_ne; [done|].
      intros Heq. rewrite <- Heq, fresh_lookup in Hgate. done.
    + intros ch Hne. by rewrite lookup_insert_ne.
  - done.
Qed.

(** C5: in a heap of the program, [done] of a group is open exactly while
    [running] is positive.  [Spawn] makes a new open channel exactly when
    [running] goes from 0 to 1 and otherwise keeps the channel; the end of a
    task closes the channel, which was open, exactly when [running] goes to
    0, and never panics; no other channel changes in either. *)
Theorem C5_gate_open_iff_running n w g G :
  reachable_in n w -> Z.of_nat n < max_int ->
  groups w !! g = Some G ->
  0 <= running G /\
  chans w !! done G = Some (running G =? 0) /\
  (forall name onExit task,
     exists w' G',
       Group_Spawn g name onExit task w = Ok (tt, w') /\
       groups w' !! g = Some G' /\
       running G' = running G + 1 /\
       chans w' !! done G' = Some false /\
       (if running G =? 0
        then chans w !! done G' = None /\ chans w' !! done G = Some true
        else done G' = done G) /\
       (forall ch, ch <> done G' -> chans w' !! ch = chans w !! ch)) /\
  (forall tid t r,
     goroutines w !! tid = Some t -> go_group t = g ->
     exists w' G',
       finish tid r w = Ok (tt, w') /\
       groups w' !! g = Some G' /\
       running G' = running G - 1 /\
       done G' = done G /\
       chans w !! done G = Some false /\
       chans w' !! done G = Some (running G' =? 0) /\
       (forall ch, ch <> done G -> chans w' !! ch = chans w !! ch)).
Proof.
  intros Hr Hn Hg.
  assert (Hn' : Z.of_nat n <= max_int) by lia.
  destruct (gate_state n w g G Hr Hn' Hg) as [Hpos Hgate].
  split; [done|]. split; [done|]. split.
  - intros name onExit task. by apply (Spawn_gate n).
  - intros tid t r Ht <-.
    destruct (finish_reachable n w tid t G r Hr Hn' Ht Hg)
      as (_ & Hfalse & Hrun' & w' & H1 & Hgr & Hch & _).
    set (G' := runTask_Group (go_name t) (go_onExit t) r (heap_top w) G) in *.
    exists w', G'. split; [done|]. split; [rewrite Hgr; apply lookup_insert_eq|].
    split; [done|]. split; [apply runTask_Group_done|]. split; [done|].
    rewrite Hch. destruct (running G' =? 0) eqn:Hz.
    + split; [apply lookup_insert_eq|].
      intros ch Hne. by rewrite lookup_insert_ne.
    + rewrite Hfalse. done.
Qed.

Lemma C5_gate_open_iff_running_witness :
  0 <= running (Group0 1 1 false None) /\
  chans (world_after history_doomed) !! done (Group0 1 1 false None)
  = Some (running (Group0 1 1 false None) =? 0) /\
  (forall name onExit task,
     exists w' G',
       Group_Spawn 0 name onExit task (world_after history_doomed) = Ok (tt, w') /\
       groups w' !! 0%nat = Some G' /\
       running G' = running (Group0 1 1 false None) + 1 /\
       chans w' !! done G' = Some false /\
       (if running (Group0 1 1 false None) =? 0
        then chans (world_after history_doomed) !! done G' = None /\
             chans w' !! done (Group0 1 1 false None) = Some true
        else done G' = done (Group0 1 1 false None)) /\
       (forall ch, ch <> done G' ->
                   chans w' !! ch = chans (world_after history_doomed) !! ch)) /\
  (forall tid t r,
     goroutines (world_after history_doomed) !! tid = Some t -> go_group t = 0%nat ->
     exists w' G',
       finish tid r (world_after history_doomed) = Ok (tt, w') /\
       groups w' !! 0%nat = Some G' /\
       running G' = running (Group0 1 1 false None) - 1 /\
       done G' = done (Group0 1 1 false None) /\
       chans (world_after history_doomed) !! done (Group0 1 1 false None)
       = Some false /\
       chans w' !! done (Group0 1 1 false None) = Some (running G' =? 0) /\
       (forall ch, ch <> done (Group0 1 1 false None) ->
                   chans w' !! ch = chans (world_after history_doomed) !! ch)).
Proof.
  apply (C5_gate_open_iff_running 3 (world_after history_doomed) 0
           (Group0 1 1 false None)).
  - exists history_doomed. split; [reflexivity|]. vm_compute. reflexivity.
  - vm_compute. reflexivity.
  - vm_compute. reflexivity.
Defined.

Example C5_gate_after_last_task :
  exists w',
    finish 0 (Returns None) (world_after history_doomed) = Ok (tt, w') /\
    groups w' !! 0%nat
    = Some (Group0 0 1 true (Some (fundamental 0 "task doomed terminated unexpectedly"))) /\
    chans w' !! 1%nat = Some true.
Proof.
  eexists. split; [vm_compute; reflexivity|].
  split; vm_compute; reflexivity.
Qed.

(** ** A closed gate stays closed (C9) *)

Lemma recv_closed ch w : chans w !! ch = Some true -> recv ch w = Ok (tt, w).
Proof. intros H. unfold recv. by rewrite H. Qed.

(** C9: the channel that [Done()] returns while no task is running is
    closed, and it is closed in every later heap, as is every channel that is
    closed now: a receive from it proceeds.  A [Spawn] in that state leaves
    it closed and gives the group another channel, which did not exist
    before and is open. *)
Theorem C9_closed_gate_stays_closed n w g G name onExit task evs w' :
  reachable_in n w -> Z.of_nat n < max_int ->
  groups w !! g = Some G -> running G = 0 ->
  run evs w = Ok w' ->
  Group_Done g w = Ok (done G, w) /\
  recv (done G) w = Ok (tt, w) /\
  recv (done G) w' = Ok (tt, w') /\
  (forall ch, chans w !! ch = Some true -> chans w' !! ch = Some true) /\
  exists w1 G1,
    Group_Spawn g name onExit task w = Ok (tt, w1) /\
    groups w1 !! g = Some G1 /\
    done G1 <> done G /\
    chans w !! done G1 = None /\
    recv (done G1) w1 = Blocked /\
    recv (done G) w1 = Ok (tt, w1).
Proof.
  intros Hr Hn Hg Hz Hrun.
  pose proof (reachable_wf w (reachable_in_reachable n w Hr)) as Hwf.
  assert (Hn' : Z.of_nat n <= max_int) by lia.
  destruct (gate_state n w g G Hr Hn' Hg) as [_ Hgate].
  rewrite Hz in Hgate. simpl in Hgate.
  split; [unfold Group_Done; mred; by rewrite Hg|].
  split; [by apply recv_closed|].
  split; [apply recv_closed; by eapply run_closed|].
  split; [intros ch Hch; by eapply run_closed|].
  destruct (Spawn_gate n w g G name onExit task Hr Hn Hg)
    as (w1 & G1 & H1 & Hg1 & _ & Hopen & Hfresh & _).
  rewrite Hz in Hfresh. simpl in Hfresh. destruct Hfresh as [Hnew Hold].
  exists w1, G1. split; [done|]. split; [done|].
  split; [intros Heq; congruence|]. split; [done|].
  split; [unfold recv; by rewrite Hopen | by apply recv_closed].
Qed.

Lemma C9_closed_gate_stays_closed_witness :
  Group_Done 0 (world_after history_fresh)
  = Ok (done (Group0 0 0 false None), world_after history_fresh) /\
  recv (done (Group0 0 0 false None)) (world_after history_fresh)
  = Ok (tt, world_after history_fresh) /\
  recv (done (Group0 0 0 false None)) (world_after (history_fresh ++ history_rearmed))
  = Ok (tt, world_after (history_fresh ++ history_rearmed)) /\
  (forall ch, chans (world_after history_fresh) !! ch = Some true ->
              chans (world_after (history_fresh ++ history_rearmed)) !! ch = Some true) /\
  exists w1 G1,
    Group_Spawn 0 "a" Continue (TaskFn 0) (world_after history_fresh) = Ok (tt, w1) /\
    groups w1 !! 0%nat = Some G1 /\
    done G1 <> done (Group0 0 0 false None) /\
    chans (world_after history_fresh) !! done G1 = None /\
    recv (done G1) w1 = Blocked /\
    recv (done (Group0 0 0 false None)) w1 = Ok (tt, w1).
Proof.
  apply (C9_closed_gate_stays_closed 2 (world_after history_fresh) 0
           (Group0 0 0 false None) "a" Continue (TaskFn 0) history_rearmed
           (world_after (history_fresh ++ history_rearmed))).
  - exists history_fresh. split; [reflexivity|]. vm_compute. reflexivity.
  - vm_compute. reflexivity.
  - vm_compute. reflexivity.
  - reflexivity.
  - vm_compute. reflexivity.
Defined.

Example C9_rearmed_group_has_open_gate :
  groups (world_after (history_fresh ++ history_rearmed)) !! 0%nat
  = Some (Group0 1 1 false None) /\
  chans (world_after (history_fresh ++ history_rearmed)) !! 1%nat = Some false /\
  chans (world_after (history_fresh ++ history_rearmed)) !! 0%nat = Some true.
Proof. split; [|split]; vm_compute; reflexivity. Qed.

(** ** NewSubgroup (C2) *)

(** C2, as stated, fails: [NewSubgroup] called with [Continue] registers its
    task in the parent with the policy [Continue], not [Fail]. *)
Lemma C2_counterexample :
  exists w' t,
    NewSubgroup (Group_Spawn 0) "updater" Continue [] (world_after history_fresh)
    = Ok (1%nat, w') /\
    goroutines (world_after history_fresh) = ∅ /\
    goroutines w' = {[ 0%nat := t ]} /\
    go_group t = 0%nat /\
    go_task t = TaskComplete 1 (WithValue (WithCancel 1 (Root 0))) /\
    go_onExit t = Continue /\
    go_onExit t <> Fail.
Proof.
  eexists _, _. split; [vm_compute; reflexivity|].
  split; [vm_compute; reflexivity|]. split; [vm_compute; reflexivity|].
  split; [reflexivity|]. split; [reflexivity|]. split; [reflexivity|]. discriminate.
Qed.

(** C2, amended: [NewSubgroup(spawn, name, onExit, fields...)] with the
    [Spawn] of a parent group registers the nested group as one task of the
    parent, under [name] and with the exit policy [onExit] that its caller
    passed; the task makes the nested group on the context it is given (with
    [fields] attached to its logger if there are any) and is then in the
    [Complete] of the nested group on that context.  The nested group is new
    and has no task. *)
Theorem C2_NewSubgroup_registers_one_task parent name onExit fields w P :
  reachable w -> groups w !! parent = Some P ->
  exists child w' tid t Gc id,
    NewSubgroup (Group_Spawn parent) name onExit fields w = Ok (child, w') /\
    goroutines w !! tid = None /\
    goroutines w' = <[tid := t]> (goroutines w) /\
    go_group t = parent /\ go_name t = name /\ go_onExit t = onExit /\
    go_ctx t = WithValue (ctx P) /\
    go_task t = TaskComplete child
                  (if (0 <? length fields)%nat then WithValue (go_ctx t)
                   else go_ctx t) /\
    groups w !! child = None /\
    groups w' !! child = Some Gc /\
    ctx Gc = WithCancel id (if (0 <? length fields)%nat then WithValue (go_ctx t)
                            else go_ctx t) /\
    ctxs w !! id = None /\
    running Gc = 0 /\ closing Gc = false /\ err Gc = None /\
    exists P',
      groups w' !! parent = Some P' /\
      running P' = int_wrap (running P + 1) /\
      ctx P' = ctx P /\ closing P' = closing P /\ err P' = err P.
Proof.
  intros Hr HP. pose proof (reachable_wf w Hr) as Hwf.
  destruct (NewSubgroup_spec parent name onExit fields w P HP (wf_no_closure w Hwf)
              (wf_logger w Hwf _ _ HP))
    as (w' & child & H1 & Hfresh & Hgr & _ & Hgo & _).
  eexists child, w', _, _, _, _. split; [exact H1|].
  split; [apply fresh_lookup|]. split; [exact Hgo|]. simpl.
  repeat (split; [reflexivity|]). split; [done|].
  split; [rewrite Hgr; apply lookup_insert_eq|]. simpl.
  split; [reflexivity|]. split; [apply fresh_lookup|].
  repeat (split; [reflexivity|]).
  exists (Spawn_Group (fresh (dom (chans w))) P). split.
  - rewrite Hgr, lookup_insert_ne, lookup_insert_eq; [done|].
    intros ->. congruence.
  - unfold Spawn_Group. simpl. by destruct (running P =? 0).
Qed.

Lemma C2_NewSubgroup_registers_one_task_witness :
  exists child w' tid t Gc id,
    NewSubgroup (Group_Spawn 0) "updater" Continue ["component"]
      (world_after history_fresh) = Ok (child, w') /\
    goroutines (world_after history_fresh) !! tid = None /\
    goroutines w' = <[tid := t]> (goroutines (world_after history_fresh)) /\
    go_group t = 0%nat /\ go_name t = "updater" /\ go_onExit t = Continue /\
    go_ctx t = WithValue (ctx (Group0 0 0 false None)) /\
    go_task t = TaskComplete child
                  (if (0 <? length ["component"])%nat then WithValue (go_ctx t)
                   else go_ctx t) /\
    groups (world_after history_fresh) !! child = None /\
    groups w' !! child = Some Gc /\
    ctx Gc = WithCancel id (if (0 <? length ["component"])%nat
                            then WithValue (go_ctx t) else go_ctx t) /\
    ctxs (world_after history_fresh) !! id = None /\
    running Gc = 0 /\ closing Gc = false /\ err Gc = None /\
    exists P',
      groups w' !! 0%nat = Some P' /\
      running P' = int_wrap (running (Group0 0 0 false None) + 1) /\
      ctx P' = ctx (Group0 0 0 false None) /\
      closing P' = closing (Group0 0 0 false None) /\
      err P' = err (Group0 0 0 false None).
Proof.
  apply (C2_NewSubgroup_registers_one_task 0 "updater" Continue ["component"]
           (world_after history_fresh) (Group0 0 0 false None)).
  - apply (reachable_world_after history_fresh (world_after history_fresh)).
    vm_compute. reflexivity.
  - vm_compute. reflexivity.
Defined.

(** ** Cancellation is kept *)

Lemma ctxs_grow_refl cs : ctxs_grow cs cs.
Proof. intros id e H. eauto. Qed.

Lemma ctxs_grow_fresh cs :
  ctxs_grow cs (<[fresh (dom cs) := None]> cs).
Proof.
  intros id e H. exists e. rewrite lookup_insert_ne; [done|].
  intros <-. by rewrite fresh_lookup in H.
Qed.

Lemma ctxs_grow_set cs id e0 :
  ctxs_grow cs (<[id := Some e0]> cs).
Proof.
  intros id' e H. destruct (decide (id = id')) as [->|Hne].
  - exists e0. apply lookup_insert_eq.
  - exists e. by rewrite lookup_insert_ne.
Qed.

Lemma ctxs_grow_cancel c cs : ctxs_grow cs (cancel_ctx c cs).
Proof.
  destruct c as [|id|id p|p]; simpl; try apply ctxs_grow_refl.
  destruct (Context_Done cs (WithCancel id p));
    [apply ctxs_grow_refl | apply ctxs_grow_set].
Qed.

Lemma Context_Done_true cs c :
  Context_Done cs c = true <-> is_Some (Context_Err cs c).
Proof. unfold Context_Done. apply bool_decide_eq_true. Qed.

Lemma Context_Done_grow cs cs' c :
  ctxs_grow cs cs' -> Context_Done cs c = true -> Context_Done cs' c = true.
Proof.
  intros Hg. rewrite !Context_Done_true.
  induction c as [|id|id p IH|p IH]; simpl.
  - done.
  - intros [e He]. destruct (cs !! id) as [[e'|]|] eqn:Hid; simpl in He; try done.
    destruct (Hg id e' Hid) as [e'' ->]. simpl. eauto.
  - destruct (cs !! id) as [[e'|]|] eqn:Hid; simpl.
    + intros _. destruct (Hg id e' Hid) as [e'' ->]. simpl. eauto.
    + intros H. destruct (mjoin (cs' !! id)); [eauto | by apply IH].
    + intros H. destruct (mjoin (cs' !! id)); [eauto | by apply IH].
  - apply IH.
Qed.

Lemma Context_Done_derived cs id p :
  Context_Done cs p = true -> Context_Done cs (WithCancel id p) = true.
Proof.
  rewrite !Context_Done_true. simpl. intros H.
  destruct (mjoin (cs !! id)); [eauto | done].
Qed.

Lemma Context_Done_WithValue cs p :
  Context_Done cs (WithValue p) = Context_Done cs p.
Proof. reflexivity. Qed.

(** ** The contexts stay linked *)

Lemma linked_frame w w' :
  linked w -> groups w' = groups w -> goroutines w' = goroutines w ->
  ctxs_grow (ctxs w) (ctxs w') -> linked w'.
Proof.
  intros [H1 H2] Hg Ho Hc. split.
  - intros g G. rewrite Hg. intros HG Hcl.
    eapply Context_Done_grow; eauto.
  - intros k t. rewrite Ho, Hg. apply H2.
Qed.

Lemma linked_update w w' g G G' :
  linked w -> groups w !! g = Some G ->
  groups w' = <[g := G']> (groups w) ->
  ctx G' = ctx G ->
  ctxs_grow (ctxs w) (ctxs w') ->
  (closing G' = true ->
   closing G = true \/ Context_Done (ctxs w') (ctx G) = true) ->
  (forall k x, goroutines w' !! k = Some x ->
     goroutines w !! k = Some x \/
     (go_group x = g /\ go_ctx x = WithValue (ctx G))) ->
  linked w'.
Proof.
  intros [H1 H2] Hg Hgr Hctx Hgrow Hcl Hgo. split.
  - intros g0 G0 H0 Hc0. rewrite Hgr in H0.
    destruct (decide (g0 = g)) as [->|Hne].
    + rewrite lookup_insert_eq in H0. injection H0 as <-. rewrite Hctx.
      destruct (Hcl Hc0) as [Hc|Hd]; [|done].
      eapply Context_Done_grow; eauto.
    + rewrite lookup_insert_ne in H0 by done.
      eapply Context_Done_grow; eauto.
  - intros k x Hx. rewrite Hgr.
    destruct (Hgo k x Hx) as [Hold|[Hgx Hcx]].
    + destruct (H2 k x Hold) as (G0 & HG0 & Hc0).
      destruct (decide (go_group x = g)) as [Heq|Hne].
      * exists G'. split; [rewrite Heq; apply lookup_insert_eq|].
        rewrite Hctx, Hc0. rewrite Heq in HG0. congruence.
      * exists G0. by rewrite lookup_insert_ne.
    + exists G'. split; [rewrite Hgx; apply lookup_insert_eq | congruence].
Qed.

Lemma linked_new_group w w' g Gn :
  wf w -> linked w -> groups w !! g = None ->
  groups w' = <[g := Gn]> (groups w) ->
  closing Gn = false ->
  ctxs_grow (ctxs w) (ctxs w') ->
  goroutines w' = goroutines w ->
  linked w'.
Proof.
  intros Hwf [H1 H2] Hg Hgr Hcl Hgrow Hgo. split.
  - intros g0 G0 H0 Hc0. rewrite Hgr in H0.
    destruct (decide (g0 = g)) as [->|Hne].
    + rewrite lookup_insert_eq in H0. injection H0 as <-. congruence.
    + rewrite lookup_insert_ne in H0 by done.
      eapply Context_Done_grow; eauto.
  - intros k x Hx. rewrite Hgo in Hx. rewrite Hgr.
    destruct (H2 k x Hx) as (G0 & HG0 & Hc0).
    exists G0. rewrite lookup_insert_ne; [done|]. intros Heq. congruence.
Qed.

Lemma linked_World0 : linked World0.
Proof. split; simpl; intros; simplify_map_eq. Qed.

Lemma exit_Group_closing_cases e G :
  closing (exit_Group e G) = true ->
  closing G = true \/ closing G = false.
Proof. destruct (closing G); auto. Qed.

Lemma exec_linked ev w w' :
  wf w -> linked w -> exec ev w = Ok (tt, w') -> linked w'.
Proof.
  intros Hwf Hl H.
  destruct ev as [|id dl|c|parent name onExit fields|g0 name onExit fn|tid r|g0 e];
    simpl in H.
  - unfold new_root in H. mred. simpl in H. injection H as <-.
    apply (linked_frame w); simpl; auto using ctxs_grow_fresh.
  - unfold cancel_root in H. destruct (ctxs w !! id) as [[e|]|]; [| |done];
      injection H as <-.
    + apply (linked_frame w); auto using ctxs_grow_refl.
    + apply (linked_frame w); simpl; auto using ctxs_grow_set.
  - unfold bind, check_Context, ret in H.
    destruct (Context_valid (ctxs w) c); [|done]. simpl in H.
    destruct (has_logger c) eqn:Hlog; [|done].
    destruct (NewGroup_spec c w) as (w1 & H1 & Hgr & _ & Hcx & _ & Hgo).
    rewrite H1 in H. injection H as <-.
    eapply (linked_new_group w w1 _ _ Hwf Hl (fresh_lookup _) Hgr); simpl; try done.
    rewrite Hcx. apply ctxs_grow_fresh.
  - unfold bind at 1 in H.
    destruct (groups w !! parent) as [P|] eqn:HP.
    2: { by rewrite NewSubgroup_None in H. }
    destruct (NewSubgroup_spec parent name onExit fields w P HP (wf_no_closure w Hwf)
              (wf_logger w Hwf _ _ HP))
      as (w1 & child & H1 & Hfresh & Hgr & Hch & Hgo & Hcx).
    rewrite H1 in H. unfold ret in H. injection H as <-.
    set (c' := if (0 <? length fields)%nat then WithValue (WithValue (ctx P))
               else WithValue (ctx P)) in *.
    set (t := mkGoroutine parent (WithValue (ctx P)) (int_wrap (nextTaskID w + 1))
                name onExit (TaskComplete child c')) in *.
    set (wm := mkWorld (nextTaskID w) (heap_top w) (chans w) (gchans w) (ctxs w)
                 (<[parent := Spawn_Group (fresh (dom (chans w))) P]> (groups w))
                 (<[fresh (dom (goroutines w)) := t]> (goroutines w))).
    assert (Hlm : linked wm).
    { eapply (linked_update w wm parent P _ Hl HP eq_refl); simpl.
      - unfold Spawn_Group. simpl. by destruct (running P =? 0).
      - apply ctxs_grow_refl.
      - unfold Spawn_Group. simpl. destruct (running P =? 0); simpl; auto.
      - intros k x Hx.
        apply lookup_insert_Some in Hx as [[<- <-]|[_ Hx]]; [right | by left].
        done. }
    assert (Hcm : groups wm !! child = None).
    { simpl. rewrite lookup_insert_ne; [done|]. intros <-. congruence. }
    destruct Hlm as [Hm1 Hm2]. split.
    + intros g0 G0 H0 Hc0. rewrite Hgr in H0.
      destruct (decide (g0 = child)) as [->|Hne].
      * rewrite lookup_insert_eq in H0. injection H0 as <-. done.
      * rewrite lookup_insert_ne in H0 by done.
        eapply Context_Done_grow; [|by apply (Hm1 g0 G0)].
        rewrite Hcx. apply ctxs_grow_fresh.
    + intros k x Hx. rewrite Hgo in Hx. rewrite Hgr.
      destruct (Hm2 k x Hx) as (G0 & HG0 & Hc0). simpl in HG0.
      exists G0. rewrite lookup_insert_ne; [done|]. intros Heq.
      rewrite <- Heq in HG0. simpl in Hcm. congruence.
  - destruct (groups w !! g0) as [G0|] eqn:Hg0.
    2: { by rewrite Group_Spawn_None in H. }
    destruct (Group_Spawn_spec g0 name onExit (TaskFn fn) w G0 Hg0
                (wf_logger w Hwf _ _ Hg0))
      as (w1 & H1 & Hgr & _ & Hgo & Hcx & _).
    rewrite H1 in H. injection H as <-.
    eapply (linked_update w w1 g0 G0 _ Hl Hg0 Hgr).
    + unfold Spawn_Group. simpl. by destruct (running G0 =? 0).
    + rewrite Hcx. apply ctxs_grow_refl.
    + unfold Spawn_Group. simpl. destruct (running G0 =? 0); simpl; auto.
    + intros k x. rewrite Hgo. intros Hx.
      apply lookup_insert_Some in Hx as [[<- <-]|[_ Hx]]; [right | by left].
      done.
  - destruct (goroutines w !! tid) as [t|] eqn:Ht.
    2: { unfold finish, bind, get in H. rewrite Ht in H. done. }
    destruct (wf_group w Hwf _ _ Ht) as [G0 Hg0].
    destruct (finish_cases tid r w t G0 Ht Hg0)
      as [(w1 & H1 & _ & Hgr & _ & Hcx & Hgo & _) | [(_ & _ & H1) | (_ & _ & H1)]];
      rewrite H1 in H; [|done..].
    injection H as <-.
    destruct (wf_cancel w Hwf _ G0 Hg0) as (Hcan & id & p & Hctx).
    eapply (linked_update w w1 _ G0 _ Hl Hg0 Hgr).
    + apply runTask_Group_ctx.
    + rewrite Hcx. destruct (reported _ _ _ _ _); [|apply ctxs_grow_refl].
      destruct (closing G0); [apply ctxs_grow_refl | apply ctxs_grow_cancel].
    + intros Hc'. destruct (closing G0) eqn:Hc0; [by left | right].
      rewrite Hcx. unfold runTask_Group in Hc'. simpl in Hc'.
      destruct (reported _ _ _ _ _); [|congruence].
      rewrite Hcan, Hctx. apply cancel_ctx_Done.
    + intros k x. rewrite Hgo. intros Hx.
      apply lookup_delete_Some in Hx as [_ Hx]. by left.
  - unfold Group_Exit in H. destruct (groups w !! g0) as [G0|] eqn:Hg0.
    2: { by rewrite Group_exit_None in H. }
    destruct (Group_exit_spec g0 e w G0 Hg0) as (w1 & H1 & Hgr & Hcx & _ & _ & Hgo & _).
    rewrite H1 in H. injection H as <-.
    destruct (wf_cancel w Hwf _ G0 Hg0) as (Hcan & id & p & Hctx).
    eapply (linked_update w w1 _ G0 _ Hl Hg0 Hgr).
    + apply exit_Group_ctx.
    + rewrite Hcx. destruct (closing G0); [apply ctxs_grow_refl | apply ctxs_grow_cancel].
    + intros Hc'. destruct (closing G0) eqn:Hc0; [by left | right].
      rewrite Hcx, Hcan, Hctx. apply cancel_ctx_Done.
    + intros k x. rewrite Hgo. by left.
Qed.

Lemma run_linked evs w w' :
  wf w -> linked w -> run evs w = Ok w' -> linked w'.
Proof.
  revert w. induction evs as [|ev evs IH]; intros w Hwf Hl H.
  - simpl in H. by injection H as <-.
  - apply run_cons in H as (w1 & H1 & H2).
    eapply (IH w1); [by apply (exec_step ev w w1) | by eapply exec_linked | done].
Qed.

Lemma reachable_linked w : reachable w -> linked w.
Proof. intros [evs H]. eapply run_linked; eauto using wf_World0, linked_World0. Qed.

(** ** What a history keeps of a group *)

Lemma group_step_ctx w g G ev G' : group_step w g G ev G' -> ctx G' = ctx G.
Proof.
  intros Hs. destruct Hs; simpl; try done.
  - unfold Spawn_Group. simpl. by destruct (running G =? 0).
  - apply runTask_Group_ctx.
  - apply exit_Group_ctx.
Qed.

Lemma run_ctx_kept evs w w' g G :
  wf w -> run evs w = Ok w' -> groups w !! g = Some G ->
  exists G', groups w' !! g = Some G' /\ ctx G' = ctx G.
Proof.
  revert w G. induction evs as [|ev evs IH]; intros w G Hwf H Hg.
  - simpl in H. injection H as <-. eauto.
  - apply run_cons in H as (w1 & H1 & H2).
    destruct (exec_group ev w w1 g G Hwf H1 Hg) as (G1 & Hg1 & Hs).
    destruct (IH w1 G1) as (G' & Hg' & Hc'); [by apply (exec_step ev w w1) | done..|].
    exists G'. split; [done|]. rewrite Hc'. by eapply group_step_ctx.
Qed.

Lemma exit_Group_settled e G :
  (is_Some (err G) -> closing G = true) ->
  is_Some (err (exit_Group e G)) -> closing (exit_Group e G) = true.
Proof.
  intros H. unfold exit_Group. destruct (closing G && _) eqn:Hd; [done|].
  simpl. done.
Qed.

Lemma group_step_settled w g G ev G' :
  group_step w g G ev G' ->
  (is_Some (err G) -> closing G = true) ->
  is_Some (err G') -> closing G' = true.
Proof.
  intros Hs H. destruct Hs; simpl; try done.
  - unfold Spawn_Group. simpl. by destruct (running G =? 0).
  - unfold runTask_Group. simpl. destruct (reported _ _ _ _ _); [|done].
    by apply exit_Group_settled.
  - by apply exit_Group_settled.
Qed.

Lemma exec_settled ev w w' :
  wf w -> settled w -> exec ev w = Ok (tt, w') -> settled w'.
Proof.
  intros Hwf Hs H g G' Hg' He.
  destruct (groups w !! g) as [G|] eqn:Hg.
  - destruct (exec_group ev w w' g G Hwf H Hg) as (G1 & Hg1 & Hst).
    replace G' with G1 by congruence.
    eapply group_step_settled; eauto. congruence.
  - (* the group is new: its result is unset *)
    destruct ev as [|id dl|c|parent name onExit fields|g0 name onExit fn|tid r|g0 e];
      simpl in H.
    + unfold new_root in H. mred. simpl in H. injection H as <-. simpl in Hg'. congruence.
    + unfold cancel_root in H. destruct (ctxs w !! id) as [[e|]|]; [| |done];
        injection H as <-; simpl in Hg'; congruence.
    + unfold bind, check_Context, ret in H.
      destruct (Context_valid (ctxs w) c); [|done]. simpl in H.
      destruct (has_logger c) eqn:Hlog; [|done].
      destruct (NewGroup_spec c w) as (w1 & H1 & Hgr & _).
      rewrite H1 in H. injection H as <-. rewrite Hgr in Hg'.
      apply lookup_insert_Some in Hg' as [[_ <-]|[_ Hg']]; [|congruence].
      simpl in He. by destruct He.
    + unfold bind at 1 in H.
      destruct (groups w !! parent) as [P|] eqn:HP.
      2: { by rewrite NewSubgroup_None in H. }
      destruct (NewSubgroup_spec parent name onExit fields w P HP (wf_no_closure w Hwf)
              (wf_logger w Hwf _ _ HP))
        as (w1 & child & H1 & Hfresh & Hgr & _).
      rewrite H1 in H. unfold ret in H. injection H as <-. rewrite Hgr in Hg'.
      apply lookup_insert_Some in Hg' as [[_ <-]|[_ Hg']].
      * simpl in He. by destruct He.
      * apply lookup_insert_Some in Hg' as [[<- _]|[_ Hg']]; congruence.
    + destruct (groups w !! g0) as [G0|] eqn:Hg0.
      2: { by rewrite Group_Spawn_None in H. }
      destruct (Group_Spawn_spec g0 name onExit (TaskFn fn) w G0 Hg0
                (wf_logger w Hwf _ _ Hg0))
        as (w1 & H1 & Hgr & _).
      rewrite H1 in H. injection H as <-. rewrite Hgr in Hg'.
      apply lookup_insert_Some in Hg' as [[<- _]|[_ Hg']]; congruence.
    + destruct (goroutines w !! tid) as [t|] eqn:Ht.
      2: { unfold finish, bind, get in H. rewrite Ht in H. done. }
      destruct (wf_group w Hwf _ _ Ht) as [G0 Hg0].
      destruct (finish_cases tid r w t G0 Ht Hg0)
        as [(w1 & H1 & _ & Hgr & _) | [(_ & _ & H1) | (_ & _ & H1)]];
        rewrite H1 in H; [|done..].
      injection H as <-. rewrite Hgr in Hg'.
      apply lookup_insert_Some in Hg' as [[<- _]|[_ Hg']]; congruence.
    + unfold Group_Exit in H. destruct (groups w !! g0) as [G0|] eqn:Hg0.
      2: { by rewrite Group_exit_None in H. }
      destruct (Group_exit_spec g0 e w G0 Hg0) as (w1 & H1 & Hgr & _).
      rewrite H1 in H. injection H as <-. rewrite Hgr in Hg'.
      apply lookup_insert_Some in Hg' as [[<- _]|[_ Hg']]; congruence.
Qed.

Lemma run_settled evs w w' :
  wf w -> settled w -> run evs w = Ok w' -> settled w'.
Proof.
  revert w. induction evs as [|ev evs IH]; intros w Hwf Hs H.
  - simpl in H. by injection H as <-.
  - apply run_cons in H as (w1 & H1 & H2).
    eapply (IH w1); [by apply (exec_step ev w w1) | by eapply exec_settled | done].
Qed.

Lemma settled_World0 : settled World0.
Proof. intros g G H. simpl in H. simplify_map_eq. Qed.

Lemma Context_Err_insert_None cs id c :
  cs !! id = None -> Context_Err (<[id := None]> cs) c = Context_Err cs c.
Proof.
  intros Hid. induction c as [|id'|id' p IH|p IH]; simpl.
  - done.
  - destruct (decide (id = id')) as [->|Hne].
    + by rewrite lookup_insert_eq, Hid.
    + by rewrite lookup_insert_ne.
  - rewrite IH. destruct (decide (id = id')) as [->|Hne].
    + by rewrite lookup_insert_eq, Hid.
    + by rewrite lookup_insert_ne.
  - apply IH.
Qed.

(** ** More of [Group]: the count, [Wait], [NewGroup] *)

(** X1: in a heap of the program, [Running()] is the number of tasks that
    [Spawn] has started on the group and that have not ended. *)
Theorem X1_Running_counts_live_tasks n w g G :
  reachable_in n w -> Z.of_nat n <= max_int ->
  groups w !! g = Some G ->
  Group_Running g w = Ok (Z.of_nat (size (tasks_of g (goroutines w))), w).
Proof.
  intros Hr Hn Hg. destruct (reachable_in_counted n w Hr Hn) as [Hc _].
  destruct (Hc g G Hg) as [Hrun _].
  unfold Group_Running. mred. by rewrite Hg, Hrun.
Qed.

Lemma X1_Running_counts_live_tasks_witness :
  Group_Running 0 (world_after history_two_workers)
  = Ok (Z.of_nat (size (tasks_of 0 (goroutines (world_after history_two_workers)))),
        world_after history_two_workers).
Proof.
  apply (X1_Running_counts_live_tasks 4 (world_after history_two_workers) 0
           (Group0 2 1 false None)).
  - exists history_two_workers. split; [reflexivity|]. vm_compute. reflexivity.
  - vm_compute. discriminate.
  - vm_compute. reflexivity.
Defined.

(** X2: in a heap of the program, [Wait()] cannot proceed while a task that
    [Spawn] started on the group has not ended, and returns [g.err] as it is
    when there is none. *)
Theorem X2_Wait_proceeds_iff_idle n w g G :
  reachable_in n w -> Z.of_nat n <= max_int ->
  groups w !! g = Some G ->
  Group_Wait g w =
    if bool_decide (size (tasks_of g (goroutines w)) = 0%nat)
    then Ok (err G, w) else Blocked.
Proof.
  intros Hr Hn Hg. destruct (gate_state n w g G Hr Hn Hg) as [_ Hgate].
  destruct (reachable_in_counted n w Hr Hn) as [Hc _].
  destruct (Hc g G Hg) as [Hrun _].
  unfold Group_Wait, Group_Done, recv. mred. rewrite Hg, Hgate.
  case_bool_decide as Hz.
  - rewrite Hrun, Hz. simpl. by rewrite Hg.
  - destruct (running G =? 0) eqn:Hz'; [|done]. lia.
Qed.

Lemma X2_Wait_proceeds_iff_idle_witness :
  Group_Wait 0 (world_after history_first_failure)
  = if bool_decide
         (size (tasks_of 0 (goroutines (world_after history_first_failure))) = 0%nat)
    then Ok (err (Group0 1 1 true (Some boom)), world_after history_first_failure)
    else Blocked.
Proof.
  apply (X2_Wait_proceeds_iff_idle 5 (world_after history_first_failure) 0
           (Group0 1 1 true (Some boom))).
  - exists history_first_failure. split; [reflexivity|]. vm_compute. reflexivity.
  - vm_compute. discriminate.
  - vm_compute. reflexivity.
Defined.

Example X2_Wait_blocked_with_live_task :
  Group_Wait 0 (world_after history_first_failure) = Blocked.
Proof. vm_compute. reflexivity. Qed.

(** X3: in any heap, [NewGroup(ctx)] returns a group that was not there
    before, with no task, an unset result and a context derived from [ctx]
    that is done exactly if [ctx] is; [Running()] is 0 and [Wait()] returns
    nil at once.  The groups that were there are untouched. *)
Theorem X3_NewGroup_is_idle c w :
  exists g w' G id,
    NewGroup c w = Ok (g, w') /\
    groups w !! g = None /\ groups w' !! g = Some G /\
    ctx G = WithCancel id c /\ ctxs w !! id = None /\
    Context_Done (ctxs w') (ctx G) = Context_Done (ctxs w) c /\
    closing G = false /\
    Group_Running g w' = Ok (0, w') /\
    Group_Wait g w' = Ok (None, w') /\
    (forall g', g' <> g -> groups w' !! g' = groups w !! g').
Proof.
  destruct (NewGroup_spec c w) as (w' & H1 & Hgr & Hch & Hcx & _).
  eexists _, w', _, _. split; [exact H1|].
  split; [apply fresh_lookup|].
  split; [rewrite Hgr; apply lookup_insert_eq|]. simpl.
  split; [reflexivity|]. split; [apply fresh_lookup|].
  split.
  { unfold Context_Done. simpl. rewrite Hcx, lookup_insert_eq. simpl.
    by rewrite Context_Err_insert_None by apply fresh_lookup. }
  split; [reflexivity|].
  split; [unfold Group_Running; mred; by rewrite Hgr, lookup_insert_eq|].
  split.
  { unfold Group_Wait, Group_Done, recv. mred.
    rewrite Hgr, lookup_insert_eq. simpl. rewrite Hch, lookup_insert_eq.
    by rewrite Hgr, lookup_insert_eq. }
  intros g' Hne. rewrite Hgr. by rewrite lookup_insert_ne.
Qed.

(** X4: in any heap, [NewGroup(ctx)], then [Exit(err)], then [Wait()]
    returns [err] itself, also when [err] is nil or [context.Canceled], and
    leaves the group closing with its context done. *)
Theorem X4_NewGroup_Exit_Wait c e w :
  exists g w' G,
    (g <- NewGroup c ;; Group_Exit g e ;; r <- Group_Wait g ;; ret (g, r)) w
    = Ok ((g, e), w') /\
    groups w' !! g = Some G /\ err G = e /\ closing G = true /\
    Context_Done (ctxs w') (ctx G) = true.
Proof.
  destruct (NewGroup_spec c w) as (w1 & H1 & Hgr & Hch & Hcx & _).
  set (g := fresh (dom (groups w))) in *.
  set (G1 := mkGroup (WithCancel (fresh (dom (ctxs w))) c)
               (WithCancel (fresh (dom (ctxs w))) c) 0
               (fresh (dom (chans w))) false None) in *.
  assert (Hg1 : groups w1 !! g = Some G1) by (rewrite Hgr; apply lookup_insert_eq).
  destruct (Group_exit_spec g e w1 G1 Hg1) as (w2 & H2 & Hgr2 & Hcx2 & Hch2 & _).
  assert (HG2 : exit_Group e G1 = set_closing true (set_err e G1)) by reflexivity.
  assert (Hg2 : groups w2 !! g = Some (exit_Group e G1)).
  { rewrite Hgr2. apply lookup_insert_eq. }
  exists g, w2, (exit_Group e G1). split.
  - rewrite (bind_Ok _ _ _ _ _ H1). unfold Group_Exit.
    rewrite (bind_Ok _ _ _ _ _ H2).
    unfold Group_Wait, Group_Done, recv. mred.
    rewrite Hg2, Hch2, Hch, HG2. simpl. rewrite lookup_insert_eq.
    rewrite Hg2, HG2. reflexivity.
  - split; [done|]. rewrite HG2. simpl. repeat split.
    rewrite Hcx2. simpl. apply cancel_ctx_Done.
Qed.

(** ** More of [Group]: shutdown *)

(** X5: in a heap of the program, a group whose result is set is closing. *)
Theorem X5_result_implies_closing w g G :
  reachable w -> groups w !! g = Some G -> is_Some (err G) ->
  closing G = true.
Proof.
  intros [evs H] Hg He.
  eapply (run_settled evs World0 w wf_World0 settled_World0 H); eauto.
Qed.

Lemma X5_result_implies_closing_witness :
  closing (Group0 1 1 true (Some boom)) = true.
Proof.
  apply (X5_result_implies_closing (world_after history_first_failure) 0
           (Group0 1 1 true (Some boom))).
  - apply (reachable_world_after history_first_failure
             (world_after history_first_failure)).
    vm_compute. reflexivity.
  - vm_compute. reflexivity.
  - simpl. eauto.
Defined.

(** X6: in a heap of the program, the context of a closing group is done,
    and so is the context of every task of the group that is still
    running. *)
Theorem X6_closing_group_contexts_done w g G :
  reachable w -> groups w !! g = Some G -> closing G = true ->
  Context_Done (ctxs w) (ctx G) = true /\
  forall k t, goroutines w !! k = Some t -> go_group t = g ->
              Context_Done (ctxs w) (go_ctx t) = true.
Proof.
  intros Hr Hg Hc. destruct (reachable_linked w Hr) as [H1 H2].
  split; [by apply (H1 g G)|].
  intros k t Ht Hgt. destruct (H2 k t Ht) as (G0 & HG0 & ->).
  rewrite Context_Done_WithValue. apply (H1 g G0); congruence.
Qed.

Lemma X6_closing_group_contexts_done_witness :
  Context_Done (ctxs (world_after history_first_failure))
    (ctx (Group0 1 1 true (Some boom))) = true /\
  forall k t,
    goroutines (world_after history_first_failure) !! k = Some t ->
    go_group t = 0%nat ->
    Context_Done (ctxs (world_after history_first_failure)) (go_ctx t) = true.
Proof.
  apply (X6_closing_group_contexts_done (world_after history_first_failure) 0
           (Group0 1 1 true (Some boom))).
  - apply (reachable_world_after history_first_failure
             (world_after history_first_failure)).
    vm_compute. reflexivity.
  - vm_compute. reflexivity.
  - reflexivity.
Defined.

(** X7: when a task with policy [Continue] returns nil, the result, the
    closing flag and every context stay as they are; only the count goes
    down by one. *)
Theorem X7_Continue_nil_changes_nothing n w tid t G :
  reachable_in n w -> Z.of_nat n <= max_int ->
  goroutines w !! tid = Some t -> go_onExit t = Continue ->
  groups w !! go_group t = Some G ->
  exists w' G',
    finish tid (Returns None) w = Ok (tt, w') /\
    groups w' !! go_group t = Some G' /\
    G' = set_running (running G - 1) G /\
    ctxs w' = ctxs w /\
    goroutines w' = delete tid (goroutines w).
Proof.
  intros Hr Hn Ht Hp Hg.
  destruct (finish_reachable n w tid t G (Returns None) Hr Hn Ht Hg)
    as (_ & _ & Hrun & w' & H1 & Hgr & _ & Hcx & Hgo & _).
  assert (Hrep : reported (go_name t) (go_onExit t) (Returns None) (heap_top w) G
                 = None).
  { unfold reported. simpl. rewrite Hp. by destruct (closing G). }
  rewrite Hrep in Hcx.
  exists w', (runTask_Group (go_name t) (go_onExit t) (Returns None) (heap_top w) G).
  split; [done|]. split; [rewrite Hgr; apply lookup_insert_eq|].
  split; [|done].
  rewrite runTask_Group_running in Hrun.
  unfold runTask_Group. rewrite Hrep. simpl. by rewrite Hrun.
Qed.

Lemma X7_Continue_nil_changes_nothing_witness :
  exists w' G',
    finish 0 (Returns None) (world_after history_two_workers) = Ok (tt, w') /\
    groups w' !! go_group worker_a = Some G' /\
    G' = set_running (running (Group0 2 1 false None) - 1) (Group0 2 1 false None) /\
    ctxs w' = ctxs (world_after history_two_workers) /\
    goroutines w' = delete 0%nat (goroutines (world_after history_two_workers)).
Proof.
  apply (X7_Continue_nil_changes_nothing 4 (world_after history_two_workers)
           0 worker_a (Group0 2 1 false None)).
  - exists history_two_workers. split; [reflexivity|]. vm_compute. reflexivity.
  - vm_compute. discriminate.
  - vm_compute. reflexivity.
  - reflexivity.
  - vm_compute. reflexivity.
Defined.

(** X8: when a task ends with an error, by returning it or by a panic, the
    group is closing afterwards and its context is done, whatever the exit
    policy of the task; the error is written to the result if the result is
    unset, unless the group was closing and the error is of the cancellation
    class. *)
Theorem X8_task_error_shuts_down n w tid t G r e :
  reachable_in n w -> Z.of_nat n <= max_int ->
  goroutines w !! tid = Some t -> groups w !! go_group t = Some G ->
  runTask r = Some e ->
  exists w' G',
    finish tid r w = Ok (tt, w') /\
    groups w' !! go_group t = Some G' /\
    closing G' = true /\
    Context_Done (ctxs w') (ctx G') = true /\
    err G' = if closing G && errors_Is (Some e) (Some Canceled) then err G
             else match err G with
                  | Some e1 => Some e1
                  | None => Some e
                  end.
Proof.
  intros Hr Hn Ht Hg Hre.
  destruct (finish_reachable n w tid t G r Hr Hn Ht Hg)
    as (_ & _ & _ & w' & H1 & Hgr & _ & Hcx & _).
  pose proof (reachable_in_reachable n w Hr) as Hrw.
  pose proof (reachable_wf w Hrw) as Hwf.
  destruct (wf_cancel w Hwf _ G Hg) as (Hcan & id & p & Hctx).
  assert (Hrep : reported (go_name t) (go_onExit t) r (heap_top w) G
                 = Some (Some e)).
  { unfold reported. by rewrite Hre. }
  rewrite Hrep in Hcx.
  exists w', (runTask_Group (go_name t) (go_onExit t) r (heap_top w) G).
  split; [done|]. split; [rewrite Hgr; apply lookup_insert_eq|].
  rewrite runTask_Group_ctx. unfold runTask_Group. rewrite Hrep. simpl.
  destruct (closing G) eqn:Hc.
  - split; [by apply exit_Group_closing_kept|]. split.
    + rewrite Hcx.
      exact (linked_closing w (reachable_linked w Hrw) (go_group t) G Hg Hc).
    + unfold exit_Group. rewrite Hc. simpl.
      destruct (errors_Is_chain e Canceled); [done|]. simpl.
      case_bool_decide as He; simpl; [by rewrite He | by destruct (err G)].
  - unfold exit_Group. rewrite Hc. simpl. split; [done|]. split.
    + rewrite Hcx, Hcan, Hctx. apply cancel_ctx_Done.
    + case_bool_decide as He; simpl; [by rewrite He | by destruct (err G)].
Qed.

Lemma X8_task_error_shuts_down_witness :
  exists w' G',
    finish 0 (Returns (Some boom)) (world_after history_two_workers) = Ok (tt, w') /\
    groups w' !! go_group worker_a = Some G' /\
    closing G' = true /\
    Context_Done (ctxs w') (ctx G') = true /\
    err G' = Some boom.
Proof.
  apply (X8_task_error_shuts_down 4 (world_after history_two_workers)
           0 worker_a (Group0 2 1 false None) (Returns (Some boom)) boom).
  - exists history_two_workers. split; [reflexivity|]. vm_compute. reflexivity.
  - vm_compute. discriminate.
  - vm_compute. reflexivity.
  - vm_compute. reflexivity.
  - reflexivity.
Defined.

(** ** More of [Group]: what the calls leave alone *)

(** X9: [Exit(err)] changes neither the count nor the channel of the group,
    nor any channel, task or other group; it calls the cancel function only
    when the group is not closing yet, so a second [Exit] leaves every
    context as it is. *)
Theorem X9_Exit_leaves_tasks_and_gate g e w G :
  groups w !! g = Some G ->
  exists w' G',
    Group_Exit g e w = Ok (tt, w') /\
    groups w' = <[g := G']> (groups w) /\
    running G' = running G /\ done G' = done G /\ ctx G' = ctx G /\
    chans w' = chans w /\ goroutines w' = goroutines w /\
    ctxs w' = (if closing G then ctxs w else cancel_ctx (cancel G) (ctxs w)) /\
    Group_Running g w' = Ok (running G, w').
Proof.
  intros Hg.
  destruct (Group_exit_spec g e w G Hg) as (w' & H1 & Hgr & Hcx & Hch & _ & Hgo & _).
  exists w', (exit_Group e G). split; [done|]. split; [done|].
  split; [apply exit_Group_running|]. split; [apply exit_Group_done|].
  split; [apply exit_Group_ctx|]. split; [done|]. split; [done|]. split; [done|].
  unfold Group_Running. mred. rewrite Hgr, lookup_insert_eq.
  by rewrite exit_Group_running.
Qed.

Lemma X9_Exit_leaves_tasks_and_gate_witness :
  exists w' G',
    Group_Exit 0 (Some boom) (world_after history_doomed_closing) = Ok (tt, w') /\
    groups w' = <[0%nat := G']> (groups (world_after history_doomed_closing)) /\
    running G' = running (Group0 1 1 true None) /\
    done G' = done (Group0 1 1 true None) /\
    ctx G' = ctx (Group0 1 1 true None) /\
    chans w' = chans (world_after history_doomed_closing) /\
    goroutines w' = goroutines (world_after history_doomed_closing) /\
    ctxs w' = (if closing (Group0 1 1 true None)
               then ctxs (world_after history_doomed_closing)
               else cancel_ctx (cancel (Group0 1 1 true None))
                      (ctxs (world_after history_doomed_closing))) /\
    Group_Running 0 w' = Ok (running (Group0 1 1 true None), w').
Proof.
  apply (X9_Exit_leaves_tasks_and_gate 0 (Some boom)
           (world_after history_doomed_closing) (Group0 1 1 true None)).
  vm_compute. reflexivity.
Defined.

(** X10: in a heap of the program, the end of a task changes only the group
    of the task: every other group keeps its struct, and its channel stays
    as it is, open or closed. *)
Theorem X10_task_end_leaves_other_groups n w tid t r g' G' :
  reachable_in n w -> Z.of_nat n <= max_int ->
  goroutines w !! tid = Some t ->
  groups w !! g' = Some G' -> g' <> go_group t ->
  exists w',
    finish tid r w = Ok (tt, w') /\
    groups w' !! g' = Some G' /\
    chans w' !! done G' = chans w !! done G'.
Proof.
  intros Hr Hn Ht Hg' Hne.
  pose proof (reachable_wf w (reachable_in_reachable n w Hr)) as Hwf.
  destruct (wf_group w Hwf _ _ Ht) as [G Hg].
  destruct (finish_reachable n w tid t G r Hr Hn Ht Hg)
    as (_ & _ & _ & w' & H1 & Hgr & Hch & _).
  exists w'. split; [done|].
  split; [rewrite Hgr; by rewrite lookup_insert_ne|].
  rewrite Hch. destruct (_ =? 0); [|done].
  rewrite lookup_insert_ne; [done|].
  intros Heq. apply Hne. eapply (wf_done_inj w Hwf); eauto.
Qed.

Lemma X10_task_end_leaves_other_groups_witness :
  exists w',
    finish 0 (Returns (Some boom)) (world_after history_two_groups) = Ok (tt, w') /\
    groups w' !! 1%nat = Some (Group1 1 3 false None) /\
    chans w' !! done (Group1 1 3 false None)
    = chans (world_after history_two_groups) !! done (Group1 1 3 false None).
Proof.
  apply (X10_task_end_leaves_other_groups 5 (world_after history_two_groups)
           0 worker_a (Returns (Some boom)) 1 (Group1 1 3 false None)).
  - exists history_two_groups. split; [reflexivity|]. vm_compute. reflexivity.
  - vm_compute. discriminate.
  - vm_compute. reflexivity.
  - vm_compute. reflexivity.
  - discriminate.
Defined.

(** X11: [Spawn] on a closing group starts the task all the same: the count
    goes up by one, the result and the closing flag stay, and the task runs
    on a context that is done already. *)
Theorem X11_Spawn_on_closing_group n w g G name onExit task :
  reachable_in n w -> Z.of_nat n < max_int ->
  groups w !! g = Some G -> closing G = true ->
  exists w' G' tid t,
    Group_Spawn g name onExit task w = Ok (tt, w') /\
    groups w' !! g = Some G' /\
    running G' = running G + 1 /\ closing G' = true /\ err G' = err G /\
    goroutines w !! tid = None /\
    goroutines w' = <[tid := t]> (goroutines w) /\
    go_group t = g /\ go_name t = name /\ go_onExit t = onExit /\
    go_task t = task /\
    go_ctx t = WithValue (ctx G) /\
    Context_Done (ctxs w') (go_ctx t) = true.
Proof.
  intros Hr Hn Hg Hc.
  assert (Hn' : Z.of_nat n <= max_int) by lia.
  pose proof (reachable_in_reachable n w Hr) as Hrw.
  destruct (reachable_in_counted n w Hr Hn') as [Hcnt Hsz].
  destruct (Hcnt g G Hg) as [Hrun _].
  pose proof (tasks_of_le g (goroutines w)) as Hle.
  destruct (Group_Spawn_spec g name onExit task w G Hg
              (wf_logger w (reachable_wf w (reachable_in_reachable n w Hr)) _ _ Hg))
    as (w' & H1 & Hgr & _ & Hgo & Hcx & _).
  eexists w', _, _, _. split; [exact H1|].
  split; [rewrite Hgr; apply lookup_insert_eq|].
  unfold Spawn_Group. simpl. unfold max_int in Hn.
  split; [apply int_wrap_small; lia|].
  split; [by destruct (running G =? 0)|].
  split; [by destruct (running G =? 0)|].
  split; [apply fresh_lookup|]. split; [exact Hgo|]. simpl.
  repeat (split; [reflexivity|]).
  rewrite Hcx.
  exact (linked_closing w (reachable_linked w Hrw) g G Hg Hc).
Qed.

Lemma X11_Spawn_on_closing_group_witness :
  exists w' G' tid t,
    Group_Spawn 0 "late" Fail (TaskFn 9) (world_after history_doomed_closing)
    = Ok (tt, w') /\
    groups w' !! 0%nat = Some G' /\
    running G' = running (Group0 1 1 true None) + 1 /\
    closing G' = true /\ err G' = err (Group0 1 1 true None) /\
    goroutines (world_after history_doomed_closing) !! tid = None /\
    goroutines w' = <[tid := t]> (goroutines (world_after history_doomed_closing)) /\
    go_group t = 0%nat /\ go_name t = "late" /\ go_onExit t = Fail /\
    go_task t = TaskFn 9 /\
    go_ctx t = WithValue (ctx (Group0 1 1 true None)) /\
    Context_Done (ctxs w') (go_ctx t) = true.
Proof.
  apply (X11_Spawn_on_closing_group 4 (world_after history_doomed_closing) 0
           (Group0 1 1 true None) "late" Fail (TaskFn 9)).
  - exists history_doomed_closing. split; [reflexivity|]. vm_compute. reflexivity.
  - vm_compute. reflexivity.
  - vm_compute. reflexivity.
  - reflexivity.
Defined.

(** ** More of [Group]: subgroups, [Complete], [Context] *)

(** X12: the context of a group made by [NewSubgroup] is derived from the
    context of the parent group, and in every later heap in which the parent
    is closing the context of the subgroup is done. *)
Theorem X12_subgroup_context_follows_parent
    parent name onExit fields w P child w1 evs w2 P2 :
  reachable w -> groups w !! parent = Some P ->
  NewSubgroup (Group_Spawn parent) name onExit fields w = Ok (child, w1) ->
  run evs w1 = Ok w2 ->
  groups w2 !! parent = Some P2 -> closing P2 = true ->
  exists Gc id,
    groups w2 !! child = Some Gc /\
    ctx Gc = WithCancel id (if (0 <? length fields)%nat
                            then WithValue (WithValue (ctx P))
                            else WithValue (ctx P)) /\
    ctx P2 = ctx P /\
    Context_Done (ctxs w2) (ctx Gc) = true.
Proof.
  intros Hr HP HN Hrun HP2 Hc2.
  pose proof (reachable_wf w Hr) as Hwf.
  destruct (NewSubgroup_spec parent name onExit fields w P HP (wf_no_closure w Hwf)
              (wf_logger w Hwf _ _ HP))
    as (w1' & child' & H1 & Hfresh & Hgr & _).
  rewrite H1 in HN. injection HN as -> ->.
  assert (Hex : exec (EvNewSubgroup parent name onExit fields) w = Ok (tt, w1)).
  { simpl. unfold bind at 1. by rewrite H1. }
  destruct (exec_step _ w w1 Hwf Hex) as (Hwf1 & _).
  pose proof (exec_linked _ w w1 Hwf (reachable_linked w Hr) Hex) as Hl1.
  pose proof (run_linked evs w1 w2 Hwf1 Hl1 Hrun) as Hl2.
  assert (Hne : child <> parent) by (intros ->; congruence).
  assert (Hc1 : groups w1 !! child = Some
            (mkGroup (WithCancel (fresh (dom (ctxs w)))
                        (if (0 <? length fields)%nat
                         then WithValue (WithValue (ctx P)) else WithValue (ctx P)))
                     (WithCancel (fresh (dom (ctxs w)))
                        (if (0 <? length fields)%nat
                         then WithValue (WithValue (ctx P)) else WithValue (ctx P)))
                     0 (fresh (dom (if running P =? 0
                                    then <[fresh (dom (chans w)) := false]> (chans w)
                                    else chans w))) false None)).
  { rewrite Hgr. apply lookup_insert_eq. }
  assert (Hp1 : groups w1 !! parent = Some (Spawn_Group (fresh (dom (chans w))) P)).
  { rewrite Hgr, lookup_insert_ne by done. apply lookup_insert_eq. }
  destruct (run_ctx_kept evs w1 w2 child _ Hwf1 Hrun Hc1) as (Gc & HGc & Hcc).
  destruct (run_ctx_kept evs w1 w2 parent _ Hwf1 Hrun Hp1) as (P2' & HP2' & Hcp).
  assert (P2' = P2) as -> by congruence.
  assert (HctxP : ctx P2 = ctx P).
  { rewrite Hcp. unfold Spawn_Group. simpl. by destruct (running P =? 0). }
  exists Gc, (fresh (dom (ctxs w))). split; [done|]. simpl in Hcc.
  split; [done|]. split; [done|].
  rewrite Hcc. apply Context_Done_derived.
  pose proof (linked_closing w2 Hl2 parent P2 HP2 Hc2) as Hd.
  rewrite HctxP in Hd. by destruct (0 <? length fields)%nat.
Qed.

Lemma X12_subgroup_context_follows_parent_witness :
  exists Gc id,
    groups (world_after history_subgroup_closing) !! 1%nat = Some Gc /\
    ctx Gc = WithCancel id (if (0 <? length (@nil string))%nat
                            then WithValue (WithValue (ctx (Group0 0 0 false None)))
                            else WithValue (ctx (Group0 0 0 false None))) /\
    ctx (Group0 1 1 true (Some boom)) = ctx (Group0 0 0 false None) /\
    Context_Done (ctxs (world_after history_subgroup_closing)) (ctx Gc) = true.
Proof.
  apply (X12_subgroup_context_follows_parent 0 "sub" Fail []
           (world_after history_fresh) (Group0 0 0 false None) 1
           (world_after history_subgroup) [EvExit 0 (Some boom)]
           (world_after history_subgroup_closing) (Group0 1 1 true (Some boom))).
  - apply (reachable_world_after history_fresh (world_after history_fresh)).
    vm_compute. reflexivity.
  - vm_compute. reflexivity.
  - vm_compute. reflexivity.
  - vm_compute. reflexivity.
  - vm_compute. reflexivity.
  - reflexivity.
Defined.

(** X13: in a heap of the program, once the context given to [Complete] is
    done and no task of the group is running, [Complete] returns an error,
    never nil: the result of the group if that is set, the error of the
    context otherwise. *)
Theorem X13_Complete_not_nil_when_outer_done n w g G c :
  reachable_in n w -> Z.of_nat n <= max_int ->
  groups w !! g = Some G ->
  Context_Done (ctxs w) c = true -> running G = 0 ->
  exists e,
    Group_Complete g c w = Ok (Some e, w) /\
    match err G with
    | Some e1 => e = e1
    | None => Context_Err (ctxs w) c = Some e
    end.
Proof.
  intros Hr Hn Hg Hd Hz.
  destruct (gate_state n w g G Hr Hn Hg) as [_ Hgate].
  rewrite Hz in Hgate. simpl in Hgate.
  apply Context_Done_true in Hd as Hd'. destruct Hd' as [ec Hec].
  exists (match err G with Some e1 => e1 | None => ec end).
  split; [|by destruct (err G)].
  unfold Group_Complete, select_Done.
  rewrite (bind_Ok _ _ _ _ _ (load_Some _ _ _ Hg)).
  unfold bind at 1. rewrite Hd. simpl.
  rewrite (bind_Ok _ _ _ _ _ (Group_Wait_closed g w G Hg Hgate)).
  destruct (err G); [done|]. unfold bind, get, ret. by rewrite Hec.
Qed.

Lemma X13_Complete_not_nil_when_outer_done_witness :
  exists e,
    Group_Complete 0 (Root 0) (world_after history_outer_cancelled)
    = Ok (Some e, world_after history_outer_cancelled) /\
    match err (Group0 0 0 false None) with
    | Some e1 => e = e1
    | None => Context_Err (ctxs (world_after history_outer_cancelled)) (Root 0) = Some e
    end.
Proof.
  apply (X13_Complete_not_nil_when_outer_done 3 (world_after history_outer_cancelled)
           0 (Group0 0 0 false None) (Root 0)).
  - exists history_outer_cancelled. split; [reflexivity|]. vm_compute. reflexivity.
  - vm_compute. discriminate.
  - vm_compute. reflexivity.
  - vm_compute. reflexivity.
  - reflexivity.
Defined.

(** X14: [Context()] returns the same context for the whole life of the
    group: no event changes it. *)
Theorem X14_Context_is_constant w g G evs w' :
  reachable w -> groups w !! g = Some G -> run evs w = Ok w' ->
  Group_Context g w = Ok (ctx G, w) /\
  Group_Context g w' = Ok (ctx G, w').
Proof.
  intros Hr Hg Hrun.
  destruct (run_ctx_kept evs w w' g G (reachable_wf w Hr) Hrun Hg) as (G' & Hg' & Hc).
  unfold Group_Context. mred. by rewrite Hg, Hg', Hc.
Qed.

Lemma X14_Context_is_constant_witness :
  Group_Context 0 (world_after history_fresh)
  = Ok (ctx (Group0 0 0 false None), world_after history_fresh) /\
  Group_Context 0 (world_after (history_fresh ++ history_rearmed))
  = Ok (ctx (Group0 0 0 false None), world_after (history_fresh ++ history_rearmed)).
Proof.
  apply (X14_Context_is_constant (world_after history_fresh) 0
           (Group0 0 0 false None) history_rearmed
           (world_after (history_fresh ++ history_rearmed))).
  - apply (reachable_world_after history_fresh (world_after history_fresh)).
    vm_compute. reflexivity.
  - vm_compute. reflexivity.
  - vm_compute. reflexivity.
Defined.

(** ** Panics *)

Lemma NewGroup_Ok c w : exists g w', NewGroup c w = Ok (g, w').
Proof. destruct (NewGroup_spec c w) as (w' & H & _). eauto. Qed.

(** X15: in a heap of a program that makes its groups on contexts that carry
    a logger, no call of the group and no end of a task panics:
    [logger.Get] in [Spawn] finds a logger on the context of every group, and
    the close in [runTask] never meets a closed channel. *)
Theorem X15_no_event_panics n w ev msg :
  reachable_in n w -> Z.of_nat n <= max_int ->
  exec ev w <> GoPanic msg.
Proof.
  intros Hr Hn.
  pose proof (reachable_wf w (reachable_in_reachable n w Hr)) as Hwf.
  destruct ev as [|id dl|c|parent name onExit fields|g0 name onExit fn|tid r|g0 e];
    simpl.
  - unfold new_root. mred. done.
  - unfold cancel_root. by destruct (ctxs w !! id) as [[e|]|].
  - unfold bind, check_Context, ret.
    destruct (Context_valid (ctxs w) c && has_logger c); [|done].
    destruct (NewGroup_Ok c w) as (g & w' & ->). done.
  - unfold bind at 1.
    destruct (groups w !! parent) as [P|] eqn:HP.
    + destruct (NewSubgroup_spec parent name onExit fields w P HP
                  (wf_no_closure w Hwf) (wf_logger w Hwf _ _ HP))
        as (w1 & child & -> & _). done.
    + by rewrite NewSubgroup_None.
  - destruct (groups w !! g0) as [G0|] eqn:Hg0.
    + destruct (Group_Spawn_spec g0 name onExit (TaskFn fn) w G0 Hg0
                  (wf_logger w Hwf _ _ Hg0)) as (w1 & -> & _). done.
    + by rewrite Group_Spawn_None.
  - destruct (goroutines w !! tid) as [t|] eqn:Ht.
    + destruct (wf_group w Hwf _ _ Ht) as [G0 Hg0].
      destruct (finish_reachable n w tid t G0 r Hr Hn Ht Hg0)
        as (_ & _ & _ & w' & -> & _). done.
    + unfold finish, bind, get. by rewrite Ht.
  - unfold Group_Exit. destruct (groups w !! g0) as [G0|] eqn:Hg0.
    + destruct (Group_exit_spec g0 e w G0 Hg0) as (w1 & -> & _). done.
    + by rewrite Group_exit_None.
Qed.

Lemma X15_no_event_panics_witness :
  exec (EvSpawn 0 "late" Continue 1) (world_after history_doomed)
  <> GoPanic "interface conversion: interface {} is nil, not *zap.Logger".
Proof.
  apply (X15_no_event_panics 3 (world_after history_doomed)).
  - exists history_doomed. split; [reflexivity|]. vm_compute. reflexivity.
  - vm_compute. discriminate.
Defined.

(** [NewGroup] takes a context without a logger as it takes any other. *)
Example NewGroup_Background :
  NewGroup Background World0 = Ok (0%nat, world_bare) /\
  groups world_bare !! 0%nat = Some Group_bare.
Proof. split; vm_compute; reflexivity. Qed.


